(** * Pthreads image convolution: the convolution engine of [convolveParallel.c]

    A shallow embedding of the partitioning arithmetic of [main], of the
    worker [convolve] and of [normalize_kernel], followed by the properties
    of the engine.

    Conventions of the embedding.
    - [int] values are integers of [Z].  C leaves signed overflow undefined,
      so the embedding describes the executions in which no [int] operation
      overflows.  The one [unsigned int] computation of the program (the
      section size in [main]) has its wrap-around modulo [2^32] written out.
    - A pixel buffer ([pixel_t *]) is a [list Z] of bytes.  Reads and writes
      are checked: an access outside the buffer makes the computation [None].
    - The loops of [convolve] are bounded by [r < rows] and [c < columns];
      the fuel given to them is exactly that bound. *)

From Stdlib Require Import Ascii.
From stdpp Require Import list strings.

Local Open Scope Z_scope.

(** ** Constants and macros *)

Abbreviation BYTES_PER_PIXEL := 4%Z (only parsing).
Abbreviation RED_OFFSET := 0%Z (only parsing).
Abbreviation GREEN_OFFSET := 1%Z (only parsing).
Abbreviation BLUE_OFFSET := 2%Z (only parsing).
Abbreviation ALPHA_OFFSET := 3%Z (only parsing).
Abbreviation KERNEL_DIM := 3%Z (only parsing).

(** [#define IMG_BYTE(columns, r, c, b)
      ((columns * BYTES_PER_PIXEL * r) + (BYTES_PER_PIXEL * c) + b)] *)
Definition IMG_BYTE (columns r c b : Z) : Z :=
  (columns * BYTES_PER_PIXEL * r) + (BYTES_PER_PIXEL * c) + b.

(** [#define CLAMP(val, min, max) (val < min ? min : val > max ? max : val)] *)
Definition CLAMP (val min max : Z) : Z :=
  if val <? min then min else if max <? val then max else val.

(** ** Data *)

(** [pixel_t] is [unsigned char]: storing an [int] keeps its low eight bits. *)
Definition pixel_of_int (v : Z) : Z := v mod 256.

(** [image_t] *)
Record image_t := Image {
  pixels : list Z;
  rows : Z;
  columns : Z
}.

(** [kernel_t] is [int[3][3]]; the field [kRC] is [kernel[R][C]]. *)
Record kernel_t := Kernel {
  k00 : Z; k01 : Z; k02 : Z;
  k10 : Z; k11 : Z; k12 : Z;
  k20 : Z; k21 : Z; k22 : Z
}.

(** [kernel[r][c]].  The loops only index with [0 <= r, c < KERNEL_DIM]. *)
Definition kernel_at (kernel : kernel_t) (r c : Z) : Z :=
  match r, c with
  | 0, 0 => k00 kernel | 0, 1 => k01 kernel | 0, 2 => k02 kernel
  | 1, 0 => k10 kernel | 1, 1 => k11 kernel | 1, 2 => k12 kernel
  | 2, 0 => k20 kernel | 2, 1 => k21 kernel | 2, 2 => k22 kernel
  | _, _ => 0
  end.

(** [thread_arguments_t].  The [output] pointer of the C structure is the
    buffer that [convolve] threads through as its state. *)
Record thread_arguments_t := ThreadArguments {
  thread_id : Z;
  section_size : Z;
  input : image_t;
  kernel : kernel_t
}.

(** ** Checked memory accesses *)

Definition load (p : list Z) (off : Z) : option Z :=
  if off <? 0 then None else p !! Z.to_nat off.

Definition store (p : list Z) (off v : Z) : option (list Z) :=
  if (0 <=? off) && (off <? Z.of_nat (length p))
  then Some (<[Z.to_nat off := pixel_of_int v]> p)
  else None.

(** A [for (int x = 0; x < n; x++)] loop whose body may fail. *)
Fixpoint for_each {A} (body : Z → A → option A) (xs : list Z) (a : A) : option A :=
  match xs with
  | [] => Some a
  | x :: xs' => a' ← body x a; for_each body xs' a'
  end.

(** ** [normalize_kernel] *)

Definition normalize_kernel (kernel : kernel_t) : Z :=
  let norm :=
    foldl (λ norm r,
      foldl (λ norm c, norm + kernel_at kernel r c) norm (seqZ 0 KERNEL_DIM))
      0 (seqZ 0 KERNEL_DIM) in
  if norm =? 0 then 1 else norm.

(** ** The kernel catalog *)

Definition DEFAULT_KERNEL_NAME : string := "identity".

Record catalog_entry_t := CatalogEntry {
  name : string;
  entry_kernel : kernel_t
}.

Definition kernel_catalog : list catalog_entry_t :=
  [ CatalogEntry DEFAULT_KERNEL_NAME
      (Kernel 0 0 0
              0 1 0
              0 0 0);
    CatalogEntry "edge-detect"
      (Kernel (-1) (-1) (-1)
              (-1)   8  (-1)
              (-1) (-1) (-1));
    CatalogEntry "sharpen"
      (Kernel   0  (-1)   0
              (-1)   5  (-1)
                0  (-1)   0);
    CatalogEntry "emboss"
      (Kernel (-2) (-1)   0
              (-1)   1    1
                0  (-2)   2);
    CatalogEntry "gaussian-blur"
      (Kernel 1 2 1
              2 4 2
              1 2 1) ].

Fixpoint find_entry (catalog : list catalog_entry_t) (n : string)
  : option catalog_entry_t :=
  match catalog with
  | [] => None
  | cp :: rest => if String.eqb (name cp) n then Some cp else find_entry rest n
  end.

Definition find_entry_by_name (n : string) : option catalog_entry_t :=
  find_entry kernel_catalog n.

(** ** [convolve] *)

(** The two nested loops of [convolve] over the pixels, for any loop body.
    [c_start] is the local variable of that name: the body of the inner loop
    assigns it [0], so it keeps its value while no pixel has been visited. *)
Section Loops.
Context {A : Type}.
Variables (columns rows next_section_offset : Z).
Variable body : Z → Z → A → A.

(** [for (c = ..; IMG_BYTE(columns, r, c, 0) <= next_section_offset
                  && c < columns; c++) { c_start = 0; body }] *)
Fixpoint cols_loop (fuel : nat) (r c c_start : Z) (a : A) : Z * A :=
  match fuel with
  | O => (c_start, a)
  | S fuel' =>
      if (IMG_BYTE columns r c 0 <=? next_section_offset) && (c <? columns)
      then cols_loop fuel' r (c + 1) 0 (body r c a)
      else (c_start, a)
  end.

(** [for (r = ..; IMG_BYTE(columns, r, 0, 0) <= next_section_offset
                  && r < rows; r++) for (int c = 0 + c_start; ..) ..] *)
Fixpoint rows_loop (fuel : nat) (r c_start : Z) (a : A) : A :=
  match fuel with
  | O => a
  | S fuel' =>
      if (IMG_BYTE columns r 0 0 <=? next_section_offset) && (r <? rows)
      then
        let '(c_start', a') :=
          cols_loop (Z.to_nat (columns - (0 + c_start))) r (0 + c_start) c_start a in
        rows_loop fuel' (r + 1) c_start' a'
      else a
  end.
End Loops.

(** The loop body that records the pixel it is run on. *)
Definition visit (r c : Z) (visited : list (Z * Z)) : list (Z * Z) :=
  visited ++ [(r, c)].

(** The column at which the inner loop is entered, for each row the outer
    loop enters: the value of [0 + c_start] at that moment. *)
Fixpoint row_entries (columns rows next_section_offset : Z)
    (fuel : nat) (r c_start : Z) : list (Z * Z) :=
  match fuel with
  | O => []
  | S fuel' =>
      if (IMG_BYTE columns r 0 0 <=? next_section_offset) && (r <? rows)
      then
        let c_start' :=
          (cols_loop columns next_section_offset (λ _ _ (u : unit), u)
             (Z.to_nat (columns - (0 + c_start))) r (0 + c_start) c_start tt).1 in
        (r, 0 + c_start) :: row_entries columns rows next_section_offset fuel' (r + 1) c_start'
      else []
  end.

Section Convolve.
Variable arguments : thread_arguments_t.

Let in_columns := columns (input arguments).
Let in_rows := rows (input arguments).

Definition half_dim : Z := KERNEL_DIM ÷ 2.
Definition kernel_norm : Z := normalize_kernel (kernel arguments).

Definition current_section_offset : Z :=
  section_size arguments * thread_id arguments.
Definition next_section_offset : Z :=
  current_section_offset + section_size arguments.
Definition r_start : Z :=
  current_section_offset ÷ (BYTES_PER_PIXEL * in_columns).
Definition c_start : Z :=
  if r_start =? 0 then 0
  else (current_section_offset - BYTES_PER_PIXEL * in_columns * r_start)
         ÷ BYTES_PER_PIXEL + 1.

(** One kernel tap: the body of the [kc] loop. *)
Definition tap (r c b kr kc value : Z) : option Z :=
  let R := r + (kr - half_dim) in
  let C := c + (kc - half_dim) in
  pixelValue ← load (pixels (input arguments))
    (IMG_BYTE in_columns (CLAMP R 0 (in_rows - 1)) (CLAMP C 0 (in_columns - 1)) b);
  Some (value + kernel_at (kernel arguments) kr kc * pixelValue).

(** The value computed for channel [b] of pixel [(r, c)]. *)
Definition channel_value (r c b : Z) : option Z :=
  if b =? ALPHA_OFFSET then
    load (pixels (input arguments)) (IMG_BYTE in_columns r c b)
  else
    value ← for_each (λ kr, for_each (λ kc, tap r c b kr kc) (seqZ 0 KERNEL_DIM))
              (seqZ 0 KERNEL_DIM) 0;
    let value := value ÷ kernel_norm in
    Some (CLAMP value 0 255).

(** The body of the [c] loop: the four channels of pixel [(r, c)]. *)
Definition pixel_body (r c : Z) (out : list Z) : option (list Z) :=
  for_each (λ b out,
      value ← channel_value r c b;
      store out (IMG_BYTE in_columns r c b) value)
    (seqZ 0 BYTES_PER_PIXEL) out.

(** The pixels the worker visits, in order. *)
Definition worker_pixels : list (Z * Z) :=
  rows_loop in_columns in_rows next_section_offset
    visit
    (Z.to_nat (in_rows - r_start)) r_start c_start [].

(** The rows the worker enters, each with the column its inner loop
    starts from. *)
Definition worker_row_entries : list (Z * Z) :=
  row_entries in_columns in_rows next_section_offset
    (Z.to_nat (in_rows - r_start)) r_start c_start.

(** [convolve]: the state is the output buffer, [None] once an access has
    left a buffer. *)
Definition convolve (out : option (list Z)) : option (list Z) :=
  rows_loop in_columns in_rows next_section_offset
    (λ r c out, out ≫= pixel_body r c)
    (Z.to_nat (in_rows - r_start)) r_start c_start out.
End Convolve.

(** ** The partitioning in [main] *)

(** [unsigned int] arithmetic wraps modulo [2^32]; the quotient is then
    converted to the [int] field [section_size]. *)
Definition wrap32 (z : Z) : Z := z mod 2 ^ 32.
Definition int_of_unsigned (z : Z) : Z := if z <? 2 ^ 31 then z else z - 2 ^ 32.

(** [IMG_BYTE(input.columns, input.rows, input.columns, BYTES_PER_PIXEL)
      / number_of_threads] *)
Definition main_section_size (img : image_t) (number_of_threads : Z) : Z :=
  int_of_unsigned
    (wrap32 (IMG_BYTE (columns img) (rows img) (columns img) BYTES_PER_PIXEL)
       / wrap32 number_of_threads).

(** The arguments [main] gives to thread [i]. *)
Definition main_thread_arguments (img : image_t) (k : kernel_t)
    (number_of_threads i : Z) : thread_arguments_t :=
  {| thread_id := i;
     section_size := main_section_size img number_of_threads;
     input := img;
     kernel := k |}.

(** The convolution pass of [main]: threads [0 .. number_of_threads - 1] on
    the shared output buffer, here one after the other in the order of their
    creation.  What a worker writes depends on the input image only, never on
    the output buffer, so the order chosen does not show in the result. *)
Definition run_threads (img : image_t) (k : kernel_t) (number_of_threads : Z)
    (out : list Z) : option (list Z) :=
  foldl (λ out i, convolve (main_thread_arguments img k number_of_threads i) out)
    (Some out) (seqZ 0 number_of_threads).

(** The pixels visited by thread [i] of [number_of_threads]. *)
Definition thread_pixels (img : image_t) (k : kernel_t) (number_of_threads i : Z)
  : list (Z * Z) :=
  worker_pixels (main_thread_arguments img k number_of_threads i).

(** How many times thread [i] visits pixel [(r, c)], and how many times the
    threads of a pass visit it altogether. *)
Definition visits_by (img : image_t) (k : kernel_t) (number_of_threads i r c : Z) : nat :=
  length (filter ((r, c) =.) (thread_pixels img k number_of_threads i)).

Definition visits (img : image_t) (k : kernel_t) (number_of_threads r c : Z) : nat :=
  sum_list ((λ i, visits_by img k number_of_threads i r c) <$> seqZ 0 number_of_threads).

(** ** The engine as the specification words it *)

Definition total_bytes (img : image_t) : Z := rows img * columns img * 4.

(** An image whose buffer holds four bytes for each of its pixels. *)
Definition wf_image (img : image_t) : Prop :=
  1 ≤ rows img ∧ 1 ≤ columns img ∧
  Z.of_nat (length (pixels img)) = total_bytes img ∧
  Forall (λ v, 0 ≤ v < 256) (pixels img).

#[global] Instance wf_image_dec img : Decision (wf_image img).
Proof. unfold wf_image. apply _. Defined.

(** The section size is computed in [unsigned int] and kept in an [int]. *)
Definition fits_int (img : image_t) : Prop :=
  rows img * columns img * 4 + 4 * columns img + 4 < 2 ^ 31.

#[global] Instance fits_int_dec img : Decision (fits_int img).
Proof. unfold fits_int. apply _. Defined.

Definition clamp_to_range (v lo hi : Z) : Z := Z.max lo (Z.min hi v).

(** Channel [b] of the input pixel at [(R, C)]. *)
Definition input_channel (img : image_t) (R C b : Z) : Z :=
  pixels img !!! Z.to_nat (columns img * 4 * R + 4 * C + b).

Definition sum_of_weights (k : kernel_t) : Z :=
  k00 k + k01 k + k02 k + k10 k + k11 k + k12 k + k20 k + k21 k + k22 k.

Definition normalization_factor (k : kernel_t) : Z :=
  if bool_decide (sum_of_weights k = 0) then 1 else sum_of_weights k.

(** The nine kernel taps [(kr, kc)]. *)
Definition taps : list (Z * Z) :=
  [(0, 0); (0, 1); (0, 2); (1, 0); (1, 1); (1, 2); (2, 0); (2, 1); (2, 2)].

Definition weighted_sum (img : image_t) (k : kernel_t) (r c b : Z) : Z :=
  foldr Z.add 0
    ((λ t : Z * Z,
        kernel_at k t.1 t.2 *
        input_channel img
          (clamp_to_range (r + t.1 - 1) 0 (rows img - 1))
          (clamp_to_range (c + t.2 - 1) 0 (columns img - 1)) b) <$> taps).

(** Red, green and blue of the output pixel [(r, c)]. *)
Definition convolved_channel (img : image_t) (k : kernel_t) (r c b : Z) : Z :=
  clamp_to_range (weighted_sum img k r c b ÷ normalization_factor k) 0 255.

(** The byte of channel [b] of the output pixel [(r, c)]: alpha is the
    input's, the other channels are convolved. *)
Definition output_channel (img : image_t) (k : kernel_t) (r c b : Z) : Z :=
  if bool_decide (b = 3) then input_channel img r c 3
  else convolved_channel img k r c b.

(** A uniform image, for examples. *)
Definition uniform_image (r c v : Z) : image_t :=
  {| pixels := replicate (Z.to_nat (r * c * 4)) v; rows := r; columns := c |}.

Definition identity_kernel : kernel_t := Kernel 0 0 0 0 1 0 0 0 0.

(** ** Offsets and coordinates *)

(** The row, column and channel of the byte at offset [n]. *)
Definition offset_row (columns n : Z) : Z := n / 4 / columns.
Definition offset_column (columns n : Z) : Z := (n / 4) mod columns.
Definition offset_channel (n : Z) : Z := n mod 4.

(** The convolution of a whole image, byte by byte. *)
Definition convolved_image (img : image_t) (k : kernel_t) : list Z :=
  (λ n, output_channel img k
          (offset_row (columns img) n) (offset_column (columns img) n) (offset_channel n))
    <$> seqZ 0 (total_bytes img).

(** An image all of whose pixels have the channels [colour 0 .. colour 3]. *)
Definition constant_image (img : image_t) (colour : Z → Z) : Prop :=
  ∀ r c b, 0 ≤ r < rows img → 0 ≤ c < columns img → 0 ≤ b < 4 →
    input_channel img r c b = colour b.

(** ** [init_image] and [copy] *)

(** [init_image]: the fields are [unsigned int], the buffer is the block
    [malloc] returns, of [image->columns * image->rows * BYTES_PER_PIXEL]
    bytes whose content is not specified. *)
Definition init_image (rows columns : Z) (block : list Z) : image_t :=
  {| pixels := block; rows := wrap32 rows; columns := wrap32 columns |}.

Definition malloc_size (image : image_t) : Z :=
  wrap32 (columns image * rows image * BYTES_PER_PIXEL).

(** [copy]: [block] is the memory [init_image] obtains for the output. *)
Definition copy (input : image_t) (block : list Z) : option image_t :=
  let in_rows := int_of_unsigned (rows input) in
  let in_columns := int_of_unsigned (columns input) in
  let output := init_image in_rows in_columns block in
  out ← for_each (λ r,
           for_each (λ c,
             for_each (λ b out,
                 value ← load (pixels input) (IMG_BYTE in_columns r c b);
                 store out (IMG_BYTE in_columns r c b) value)
               (seqZ 0 BYTES_PER_PIXEL))
             (seqZ 0 in_columns))
         (seqZ 0 in_rows) (pixels output);
  Some {| pixels := out; rows := rows output; columns := columns output |}.

(** ** The options of [main] *)

(** [usage] prints its message and the help text and leaves with [exit(1)]:
    what is kept of it is the message. *)
Inductive exit_or (A : Type) : Type :=
| Continue (a : A)
| UsageExit (msge : string).
Arguments Continue {A} a.
Arguments UsageExit {A} msge.

(** The local variables of [main] that the options set. *)
Record options_t := Options {
  selected_entry : option catalog_entry_t;
  input_file_name : option string;
  output_file_name : option string;
  number_of_threads : Z
}.

(** [snprintf(err_msge, ERR_MSGE_LEN, ..)] keeps [ERR_MSGE_LEN - 1]
    characters. *)
Abbreviation ERR_MSGE_LEN := 128%nat (only parsing).

Section Options.
(** [atoi] of the C library. *)
Variable atoi : string → Z.

Definition initial_options : options_t :=
  {| selected_entry := find_entry_by_name DEFAULT_KERNEL_NAME;
     input_file_name := None;
     output_file_name := None;
     number_of_threads := 1 |}.

(** The [switch (ch)] of the option loop, [optarg] being the argument
    [getopt] found for the option. *)
Definition option_case (ch : ascii) (optarg : string) (st : options_t)
  : exit_or options_t :=
  if Ascii.eqb ch "i"%char then
    Continue {| selected_entry := selected_entry st;
                input_file_name := Some optarg;
                output_file_name := output_file_name st;
                number_of_threads := number_of_threads st |}
  else if Ascii.eqb ch "k"%char then
    match find_entry_by_name optarg with
    | None =>
        UsageExit (String.substring 0 (ERR_MSGE_LEN - 1)
                     ("no kernel named '" ++ optarg ++ "'"))
    | Some entry =>
        Continue {| selected_entry := Some entry;
                    input_file_name := input_file_name st;
                    output_file_name := output_file_name st;
                    number_of_threads := number_of_threads st |}
    end
  else if Ascii.eqb ch "o"%char then
    Continue {| selected_entry := selected_entry st;
                input_file_name := input_file_name st;
                output_file_name := Some optarg;
                number_of_threads := number_of_threads st |}
  else if Ascii.eqb ch "n"%char then
    Continue {| selected_entry := selected_entry st;
                input_file_name := input_file_name st;
                output_file_name := output_file_name st;
                number_of_threads := atoi optarg |}
  else UsageExit "".

(** [while ((ch = getopt(argc, argv, ..)) != -1)] over the options [getopt]
    yields, each with its [optarg]. *)
Fixpoint getopt_loop (opts : list (ascii * string)) (st : options_t)
  : exit_or options_t :=
  match opts with
  | [] => Continue st
  | (ch, optarg) :: rest =>
      match option_case ch optarg st with
      | Continue st' => getopt_loop rest st'
      | UsageExit msge => UsageExit msge
      end
  end.

(** The three checks after the loop. *)
Definition check_file_names (st : options_t) : exit_or options_t :=
  match input_file_name st with
  | None => UsageExit "No input file specified"
  | Some input =>
      match output_file_name st with
      | None => UsageExit "No output file specified"
      | Some output =>
          if String.eqb input output
          then UsageExit "Input and output file can't be the same"
          else Continue st
      end
  end.

Definition main_options (opts : list (ascii * string)) : exit_or options_t :=
  match getopt_loop opts initial_options with
  | Continue st => check_file_names st
  | UsageExit msge => UsageExit msge
  end.
End Options.

(** The arguments given to the options [ch], in their order. *)
Definition optargs (ch : ascii) (opts : list (ascii * string)) : list string :=
  snd <$> filter (λ o, o.1 = ch) opts.

(** An option [main] goes on after: one of [-i], [-o], [-n], or [-k] with
    the name of a kernel of the catalog. *)
Definition known_option (opt : ascii * string) : Prop :=
  opt.1 = "i"%char ∨ opt.1 = "o"%char ∨ opt.1 = "n"%char ∨
  (opt.1 = "k"%char ∧ is_Some (find_entry_by_name opt.2)).

(** The variables of [main] after the options [opts]: each is set by the
    last option of its letter, and keeps its value when there is none. *)
Definition options_after (atoi : string → Z) (st : options_t)
    (opts : list (ascii * string)) : options_t :=
  {| selected_entry :=
       match last (optargs "k" opts) with
       | Some n => find_entry_by_name n
       | None => selected_entry st
       end;
     input_file_name :=
       match last (optargs "i" opts) with
       | Some a => Some a
       | None => input_file_name st
       end;
     output_file_name :=
       match last (optargs "o" opts) with
       | Some a => Some a
       | None => output_file_name st
       end;
     number_of_threads :=
       match last (optargs "n" opts) with
       | Some a => atoi a
       | None => number_of_threads st
       end |}.

(** * Properties *)

(** ** Arithmetic of the macros *)

Lemma CLAMP_clamp_to_range v lo hi :
  lo ≤ hi → CLAMP v lo hi = clamp_to_range v lo hi.
Proof.
  intros Hle. unfold CLAMP, clamp_to_range.
  destruct (Z.ltb_spec v lo); [lia|].
  destruct (Z.ltb_spec hi v); lia.
Qed.

Lemma CLAMP_bounds v lo hi : lo ≤ hi → lo ≤ CLAMP v lo hi ≤ hi.
Proof. intros Hle. rewrite CLAMP_clamp_to_range by done. unfold clamp_to_range. lia. Qed.

Lemma CLAMP_id v lo hi : lo ≤ v ≤ hi → CLAMP v lo hi = v.
Proof.
  intros Hv. unfold CLAMP.
  destruct (Z.ltb_spec v lo); [lia|].
  destruct (Z.ltb_spec hi v); lia.
Qed.

Lemma IMG_BYTE_bounds cols nrows r c b :
  0 ≤ r < nrows → 0 ≤ c < cols → 0 ≤ b < 4 →
  0 ≤ IMG_BYTE cols r c b < nrows * cols * 4.
Proof. unfold IMG_BYTE. intros. nia. Qed.

Lemma IMG_BYTE_inj cols r c b r' c' b' :
  0 ≤ c < cols → 0 ≤ c' < cols → 0 ≤ b < 4 → 0 ≤ b' < 4 →
  IMG_BYTE cols r c b = IMG_BYTE cols r' c' b' → r = r' ∧ c = c' ∧ b = b'.
Proof.
  unfold IMG_BYTE. intros Hc Hc' Hb Hb' Heq.
  assert (r = r') by nia. subst r'.
  assert (c = c') by lia. lia.
Qed.

(** Every offset of the buffer is a channel of a pixel. *)
Lemma IMG_BYTE_decompose cols nrows n :
  1 ≤ cols → 0 ≤ n < nrows * cols * 4 →
  ∃ r c b, 0 ≤ r < nrows ∧ 0 ≤ c < cols ∧ 0 ≤ b < 4 ∧ IMG_BYTE cols r c b = n.
Proof.
  intros Hcols Hn.
  exists (n / 4 / cols), ((n / 4) mod cols), (n mod 4).
  pose proof (Z.div_mod n 4). pose proof (Z.mod_pos_bound n 4).
  pose proof (Z.div_mod (n / 4) cols). pose proof (Z.mod_pos_bound (n / 4) cols).
  assert (0 ≤ n / 4) by (apply Z.div_pos; lia).
  assert (0 ≤ n / 4 / cols) by (apply Z.div_pos; lia).
  assert (n / 4 / cols < nrows) by (apply Z.div_lt_upper_bound; [lia|]; nia).
  unfold IMG_BYTE. split_and!; lia.
Qed.

Lemma pixel_of_int_byte v : 0 ≤ v < 256 → pixel_of_int v = v.
Proof. intros. unfold pixel_of_int. by apply Z.mod_small. Qed.

(** ** [normalize_kernel] *)

Lemma normalize_kernel_factor k : normalize_kernel k = normalization_factor k.
Proof.
  unfold normalize_kernel, normalization_factor, sum_of_weights.
  destruct k as [a b c d e f g h i]; simpl.
  case_bool_decide as Hs;
    destruct (Z.eqb_spec (0 + a + b + c + d + e + f + g + h + i) 0); lia.
Qed.

Lemma normalization_factor_nonzero k : normalization_factor k ≠ 0.
Proof. unfold normalization_factor. case_bool_decide; lia. Qed.

(** ** The loops as folds over the visited pixels *)

Section LoopFacts.
Context {A : Type}.
Variables (cols nrows next : Z).
Variable body : Z → Z → A → A.

Let step (a : A) (p : Z * Z) : A := body p.1 p.2 a.

Lemma cols_loop_visit_app fuel r c cs acc :
  cols_loop cols next visit fuel r c cs acc =
  ((cols_loop cols next visit fuel r c cs []).1,
   acc ++ (cols_loop cols next visit fuel r c cs []).2).
Proof.
  revert c cs acc. induction fuel as [|fuel IH]; intros c cs acc; simpl.
  - by rewrite app_nil_r.
  - destruct (_ && _); simpl; [|by rewrite app_nil_r].
    rewrite (IH _ _ (visit r c acc)), (IH _ _ (visit r c [])).
    unfold visit. simpl. by rewrite <- app_assoc.
Qed.

Lemma cols_loop_fold fuel r c cs a :
  cols_loop cols next body fuel r c cs a =
  ((cols_loop cols next visit fuel r c cs []).1,
   foldl step a (cols_loop cols next visit fuel r c cs []).2).
Proof.
  revert c cs a. induction fuel as [|fuel IH]; intros c cs a; simpl; [done|].
  destruct (_ && _); simpl; [|done].
  rewrite IH, (cols_loop_visit_app _ _ _ _ (visit r c [])). done.
Qed.

Lemma rows_loop_visit_app fuel r cs acc :
  rows_loop cols nrows next visit fuel r cs acc =
  acc ++ rows_loop cols nrows next visit fuel r cs [].
Proof.
  revert r cs acc. induction fuel as [|fuel IH]; intros r cs acc; simpl.
  - by rewrite app_nil_r.
  - destruct (_ && _); simpl; [|by rewrite app_nil_r].
    rewrite (cols_loop_visit_app _ _ _ _ acc).
    destruct (cols_loop cols next visit _ r (0 + cs) cs []) as [cs' l] eqn:E; simpl.
    rewrite (IH _ _ (acc ++ l)), (IH _ _ l). by rewrite <- app_assoc.
Qed.

Lemma rows_loop_fold fuel r cs a :
  rows_loop cols nrows next body fuel r cs a =
  foldl step a (rows_loop cols nrows next visit fuel r cs []).
Proof.
  revert r cs a. induction fuel as [|fuel IH]; intros r cs a; simpl; [done|].
  destruct (_ && _); simpl; [|done].
  rewrite cols_loop_fold.
  destruct (cols_loop cols next visit _ r (0 + cs) cs []) as [cs' l] eqn:E; simpl.
  rewrite IH, (rows_loop_visit_app _ _ _ l), foldl_app. done.
Qed.
(** The fuel is enough: the loops stop on their guards, and more fuel
    changes nothing. *)
Lemma cols_loop_fuel fuel r c cs a :
  (Z.to_nat (cols - c) ≤ fuel)%nat →
  cols_loop cols next body fuel r c cs a =
  cols_loop cols next body (Z.to_nat (cols - c)) r c cs a.
Proof.
  revert c cs a. induction fuel as [|fuel IH]; intros c cs a Hf.
  - by replace (Z.to_nat (cols - c)) with 0%nat by lia.
  - destruct (Z.ltb_spec c cols) as [Hc|Hc].
    + replace (Z.to_nat (cols - c)) with (S (Z.to_nat (cols - (c + 1)))) by lia.
      simpl. destruct (_ && _); [|done]. apply IH. lia.
    + replace (Z.to_nat (cols - c)) with 0%nat by lia. simpl.
      destruct (Z.ltb_spec c cols); [lia|]. by rewrite andb_false_r.
Qed.

Lemma rows_loop_fuel fuel r cs a :
  (Z.to_nat (nrows - r) ≤ fuel)%nat →
  rows_loop cols nrows next body fuel r cs a =
  rows_loop cols nrows next body (Z.to_nat (nrows - r)) r cs a.
Proof.
  revert r cs a. induction fuel as [|fuel IH]; intros r cs a Hf.
  - by replace (Z.to_nat (nrows - r)) with 0%nat by lia.
  - destruct (Z.ltb_spec r nrows) as [Hr|Hr].
    + replace (Z.to_nat (nrows - r)) with (S (Z.to_nat (nrows - (r + 1)))) by lia.
      simpl. destruct (_ && _); [|done].
      destruct (cols_loop cols next body _ r (0 + cs) cs a) as [cs' a'].
      apply IH. lia.
    + replace (Z.to_nat (nrows - r)) with 0%nat by lia. simpl.
      destruct (Z.ltb_spec r nrows); [lia|]. by rewrite andb_false_r.
Qed.
End LoopFacts.


(** The rows recorded by [row_entries] are the rows the outer loop enters:
    the pixels visited are those of the inner loop run from each recorded
    column. *)
Lemma rows_loop_row_entries cols nrows next fuel r cs :
  rows_loop cols nrows next visit fuel r cs [] =
  row_entries cols nrows next fuel r cs ≫=
    (λ e, (cols_loop cols next visit (Z.to_nat (cols - e.2)) e.1 e.2 e.2 []).2).
Proof.
  assert (∀ f r c cs cs',
            (cols_loop cols next visit f r c cs []).2
            = (cols_loop cols next visit f r c cs' []).2) as Hany.
  { intros f r0 c. destruct f as [|f]; intros cs0 cs0'; simpl; [done|].
    by destruct (_ && _). }
  revert r cs. induction fuel as [|fuel IH]; intros r cs; simpl; [done|].
  destruct (_ && _); simpl; [|done].
  rewrite (cols_loop_fold cols next (λ _ _ (u : unit), u)). simpl.
  rewrite (Hany _ _ _ (0 + cs) cs).
  destruct (cols_loop cols next visit _ r (0 + cs) cs []) as [cs' l]; simpl.
  by rewrite rows_loop_visit_app, IH.
Qed.

(** ** Which pixels the loops visit *)

(** Case analysis on the guard of a loop. *)
Ltac split_guard :=
  match goal with
  | |- context [(?a <=? ?b) && (?c <? ?d)] =>
      destruct (Z.leb_spec a b); destruct (Z.ltb_spec c d); simpl
  end.

Section LoopRange.
Variables (cols nrows next : Z).

Lemma cols_loop_c_start fuel r c cs :
  (cols_loop cols next visit fuel r c cs []).1 = cs ∨
  (cols_loop cols next visit fuel r c cs []).1 = 0.
Proof.
  revert c cs. induction fuel as [|fuel IH]; intros c cs; simpl; [by left|].
  split_guard; try by left.
  rewrite cols_loop_visit_app; simpl. right.
  by destruct (IH (c + 1) 0).
Qed.

Lemma cols_loop_visited fuel r c cs p :
  p ∈ (cols_loop cols next visit fuel r c cs []).2 →
  p.1 = r ∧ c ≤ p.2 < cols ∧ IMG_BYTE cols r p.2 0 ≤ next.
Proof.
  revert c cs. induction fuel as [|fuel IH]; intros c cs; simpl.
  - by intros ?%elem_of_nil.
  - split_guard; try by intros ?%elem_of_nil.
    rewrite cols_loop_visit_app; simpl.
    intros [->|Hin]%elem_of_cons; simpl; [lia|].
    apply IH in Hin. lia.
Qed.

Lemma rows_loop_visited fuel r cs p :
  0 ≤ cs →
  p ∈ rows_loop cols nrows next visit fuel r cs [] →
  r ≤ p.1 < nrows ∧ 0 ≤ p.2 < cols ∧ IMG_BYTE cols p.1 p.2 0 ≤ next.
Proof.
  revert r cs. induction fuel as [|fuel IH]; intros r cs Hcs; simpl.
  - by intros ?%elem_of_nil.
  - split_guard; try by intros ?%elem_of_nil.
    pose proof (cols_loop_c_start (Z.to_nat (cols - (0 + cs))) r (0 + cs) cs) as Hcs'.
    pose proof (cols_loop_visited (Z.to_nat (cols - (0 + cs))) r (0 + cs) cs p) as Hrow.
    destruct (cols_loop cols next visit _ r (0 + cs) cs []) as [cs' l]; simpl in *.
    rewrite rows_loop_visit_app.
    intros [Hin|Hin]%elem_of_app.
    + destruct (Hrow Hin) as (-> & ? & ?). lia.
    + apply IH in Hin; lia.
Qed.

(** A row entered at or before column [c] reaches column [c] when the
    pixel there starts at or before [next]. *)
Lemma cols_loop_reaches fuel r c0 cs c :
  c0 ≤ c < cols → IMG_BYTE cols r c 0 ≤ next →
  (Z.to_nat (cols - c0) ≤ fuel)%nat →
  (r, c) ∈ (cols_loop cols next visit fuel r c0 cs []).2 ∧
  (cols_loop cols next visit fuel r c0 cs []).1 = 0.
Proof.
  revert c0 cs. induction fuel as [|fuel IH]; intros c0 cs Hc Ha Hf; [lia|]. simpl.
  unfold IMG_BYTE in *. split_guard; try lia.
  rewrite cols_loop_visit_app; simpl. split.
  - destruct (decide (c = c0)) as [->|Hne]; [by left|].
    right. apply (IH (c0 + 1) 0); lia.
  - by destruct (cols_loop_c_start fuel r (c0 + 1) 0).
Qed.

(** A worker that starts a row at column 0 visits every pixel from that
    row on that starts at or before [next]. *)
Lemma rows_loop_reaches fuel r0 r c :
  0 ≤ r0 ≤ r → r < nrows → 0 ≤ c < cols → IMG_BYTE cols r c 0 ≤ next →
  (Z.to_nat (nrows - r0) ≤ fuel)%nat →
  (r, c) ∈ rows_loop cols nrows next visit fuel r0 0 [].
Proof.
  revert r0. induction fuel as [|fuel IH]; intros r0 Hr Hn Hc Ha Hf; [lia|]. simpl.
  assert (IMG_BYTE cols r0 0 0 ≤ IMG_BYTE cols r c 0) by (unfold IMG_BYTE; nia).
  split_guard; try lia.
  pose proof (cols_loop_c_start (Z.to_nat (cols - (0 + 0))) r0 (0 + 0) 0) as Hcs'.
  pose proof (cols_loop_reaches (Z.to_nat (cols - (0 + 0))) r0 (0 + 0) 0 c) as Hrow.
  destruct (cols_loop cols next visit _ r0 (0 + 0) 0 []) as [cs' l]; simpl in *.
  assert (cs' = 0) as -> by lia.
  rewrite rows_loop_visit_app. apply elem_of_app.
  destruct (decide (r = r0)) as [->|Hne].
  - left. apply Hrow; lia.
  - right. apply IH; lia.
Qed.
End LoopRange.

(** ** One pixel *)

Lemma load_in_bounds p off :
  0 ≤ off < Z.of_nat (length p) → load p off = Some (p !!! Z.to_nat off).
Proof.
  intros Hoff. unfold load. destruct (Z.ltb_spec off 0); [lia|].
  apply list_lookup_lookup_total_lt. lia.
Qed.

Lemma store_in_bounds p off v :
  0 ≤ off < Z.of_nat (length p) →
  store p off v = Some (<[Z.to_nat off := pixel_of_int v]> p).
Proof.
  intros Hoff. unfold store.
  destruct (Z.leb_spec 0 off); [|lia]. destruct (Z.ltb_spec off (Z.of_nat (length p))); [done|lia].
Qed.

Section Pixel.
Variable arguments : thread_arguments_t.
Let img := input arguments.
Let k := kernel arguments.
Hypothesis Hwf : wf_image img.

Lemma input_channel_load R C b :
  0 ≤ R < rows img → 0 ≤ C < columns img → 0 ≤ b < 4 →
  load (pixels img) (IMG_BYTE (columns img) R C b) = Some (input_channel img R C b).
Proof.
  intros HR HC Hb. destruct Hwf as (? & ? & Hlen & _).
  rewrite load_in_bounds; [done|].
  rewrite Hlen. by apply IMG_BYTE_bounds.
Qed.

Lemma input_channel_byte R C b :
  0 ≤ R < rows img → 0 ≤ C < columns img → 0 ≤ b < 4 →
  0 ≤ input_channel img R C b < 256.
Proof.
  intros HR HC Hb. destruct Hwf as (? & ? & Hlen & Hbytes).
  rewrite Forall_forall in Hbytes. apply Hbytes.
  apply list_elem_of_lookup_total_2.
  pose proof (IMG_BYTE_bounds (columns img) (rows img) R C b HR HC Hb) as Hoff.
  unfold IMG_BYTE, total_bytes in *. lia.
Qed.

Lemma tap_value r c b kr kc value :
  0 ≤ b < 4 →
  tap arguments r c b kr kc value =
  Some (value + kernel_at k kr kc *
          input_channel img
            (clamp_to_range (r + kr - 1) 0 (rows img - 1))
            (clamp_to_range (c + kc - 1) 0 (columns img - 1)) b).
Proof.
  intros Hb. pose proof Hwf as (? & ? & _). unfold tap.
  change half_dim with 1.
  rewrite !CLAMP_clamp_to_range by (fold img; lia).
  replace (r + (kr - 1)) with (r + kr - 1) by lia.
  replace (c + (kc - 1)) with (c + kc - 1) by lia.
  fold img. rewrite input_channel_load; [done|..]; unfold clamp_to_range; lia.
Qed.

Lemma channel_value_rgb r c b :
  0 ≤ b < 3 → channel_value arguments r c b = Some (convolved_channel img k r c b).
Proof.
  intros Hb. unfold channel_value.
  destruct (Z.eqb_spec b 3); [lia|].
  change (seqZ 0 3) with [0; 1; 2]. simpl.
  repeat (rewrite tap_value by lia; simpl).
  unfold kernel_norm. rewrite normalize_kernel_factor.
  rewrite CLAMP_clamp_to_range by lia.
  unfold convolved_channel, weighted_sum. simpl.
  fold k. do 3 f_equal. ring.
Qed.

Lemma channel_value_alpha r c :
  0 ≤ r < rows img → 0 ≤ c < columns img →
  channel_value arguments r c 3 = Some (input_channel img r c 3).
Proof. intros Hr Hc. unfold channel_value. simpl. by apply input_channel_load. Qed.

Lemma channel_value_output r c b :
  0 ≤ r < rows img → 0 ≤ c < columns img → 0 ≤ b < 4 →
  channel_value arguments r c b = Some (output_channel img k r c b).
Proof.
  intros Hr Hc Hb. unfold output_channel. case_bool_decide as Hb3.
  - subst b. by apply channel_value_alpha.
  - apply channel_value_rgb. lia.
Qed.

Lemma output_channel_byte r c b :
  0 ≤ r < rows img → 0 ≤ c < columns img → 0 ≤ b < 4 →
  0 ≤ output_channel img k r c b < 256.
Proof.
  intros Hr Hc Hb. unfold output_channel. case_bool_decide.
  - apply input_channel_byte; lia.
  - unfold convolved_channel, clamp_to_range. lia.
Qed.

Lemma pixel_body_spec r c out :
  0 ≤ r < rows img → 0 ≤ c < columns img →
  Z.of_nat (length out) = total_bytes img →
  ∃ out', pixel_body arguments r c out = Some out' ∧
    length out' = length out ∧
    (∀ b, 0 ≤ b < 4 →
       out' !! Z.to_nat (IMG_BYTE (columns img) r c b) = Some (output_channel img k r c b)) ∧
    (∀ n, (∀ b, 0 ≤ b < 4 → n ≠ Z.to_nat (IMG_BYTE (columns img) r c b)) →
       out' !! n = out !! n).
Proof.
  intros Hr Hc Hlen.
  assert (∀ b, 0 ≤ b < 4 → 0 ≤ IMG_BYTE (columns img) r c b < Z.of_nat (length out)) as Hoff.
  { intros b Hb. rewrite Hlen. by apply IMG_BYTE_bounds. }
  unfold pixel_body. change (seqZ 0 4) with [0; 1; 2; 3]. simpl. fold img.
  rewrite !channel_value_output by lia. simpl.
  repeat (rewrite store_in_bounds by (rewrite ?length_insert; apply Hoff; lia); simpl).
  eexists. split; [done|]. split; [by rewrite !length_insert|].
  pose proof (Hoff 0). pose proof (Hoff 3). split.
  - intros b Hb. rewrite pixel_of_int_byte by (apply output_channel_byte; lia).
    rewrite !pixel_of_int_byte by (apply output_channel_byte; lia).
    assert (b = 0 ∨ b = 1 ∨ b = 2 ∨ b = 3) as [-> | [-> | [-> | ->]]] by lia;
      rewrite ?list_lookup_insert_ne by (unfold IMG_BYTE in *; lia);
      rewrite list_lookup_insert_eq; try done;
      rewrite ?length_insert; unfold IMG_BYTE in *; lia.
  - intros n Hn.
    rewrite !list_lookup_insert_ne; [done|..];
      intros Heq; (eapply Hn; [|by symmetry]); lia.
Qed.

(** Writing the pixels of a list, one after the other. *)
Lemma write_pixels_spec (l : list (Z * Z)) out :
  Z.of_nat (length out) = total_bytes img →
  Forall (λ p, 0 ≤ p.1 < rows img ∧ 0 ≤ p.2 < columns img) l →
  ∃ out', foldl (λ o p, o ≫= pixel_body arguments p.1 p.2) (Some out) l = Some out' ∧
    length out' = length out ∧
    (∀ r c b, (r, c) ∈ l → 0 ≤ b < 4 →
       out' !! Z.to_nat (IMG_BYTE (columns img) r c b) = Some (output_channel img k r c b)) ∧
    (∀ n, (∀ r c b, (r, c) ∈ l → 0 ≤ b < 4 → n ≠ Z.to_nat (IMG_BYTE (columns img) r c b)) →
       out' !! n = out !! n).
Proof.
  intros Hlen. induction l as [|[r c] l IH] using rev_ind; intros Hl.
  - exists out. simpl. split_and!; [done..| |done].
    by intros r c b ?%elem_of_nil.
  - apply Forall_app in Hl as [Hl Hp]. apply Forall_singleton in Hp as [Hr Hc].
    simpl in Hr, Hc.
    destruct (IH Hl) as (out1 & Hrun & Hlen1 & Hin1 & Hout1).
    destruct (pixel_body_spec r c out1 Hr Hc) as (out2 & Hbody & Hlen2 & Hin2 & Hout2);
      [lia|].
    exists out2. rewrite foldl_app, Hrun. simpl.
    split_and!; [done|lia| |].
    + intros r' c' b Hin Hb.
      destruct (decide ((r', c') = (r, c))) as [[= -> ->]|Hne]; [by apply Hin2|].
      apply elem_of_app in Hin as [Hin|Hin%list_elem_of_singleton]; [|done].
      rewrite Hout2; [by apply Hin1|].
      intros b' Hb' Heq.
      rewrite Forall_forall in Hl. destruct (Hl _ Hin) as [Hr' Hc']. simpl in *.
      apply Z2Nat.inj in Heq;
        [|pose proof (IMG_BYTE_bounds (columns img) (rows img) r' c' b); lia
         |pose proof (IMG_BYTE_bounds (columns img) (rows img) r c b'); lia].
      apply IMG_BYTE_inj in Heq; [|lia..].
      destruct Heq as (-> & -> & _). by apply Hne.
    + intros n Hn. rewrite Hout2, Hout1; [done|..].
      * intros r' c' b Hin Hb. apply Hn; [|done]. apply elem_of_app. by left.
      * intros b Hb. apply Hn; [|done]. apply elem_of_app. right. by apply list_elem_of_singleton.
Qed.
(** The buffer after the writes depends on which pixels are written, not on
    the order of the writes: the threads of a pass may be run one after the
    other. *)
Lemma write_pixels_order (l1 l2 : list (Z * Z)) out :
  Z.of_nat (length out) = total_bytes img →
  Forall (λ p, 0 ≤ p.1 < rows img ∧ 0 ≤ p.2 < columns img) l1 →
  Forall (λ p, 0 ≤ p.1 < rows img ∧ 0 ≤ p.2 < columns img) l2 →
  (∀ p, p ∈ l1 ↔ p ∈ l2) →
  foldl (λ o p, o ≫= pixel_body arguments p.1 p.2) (Some out) l1 =
  foldl (λ o p, o ≫= pixel_body arguments p.1 p.2) (Some out) l2.
Proof.
  intros Hlen Hl1 Hl2 Hsame. pose proof Hwf as (_ & Hcols & _).
  destruct (write_pixels_spec l1 out Hlen Hl1) as (out1 & -> & Hlen1 & Hin1 & Hout1).
  destruct (write_pixels_spec l2 out Hlen Hl2) as (out2 & -> & Hlen2 & Hin2 & Hout2).
  f_equal. apply list_eq. intros n.
  destruct (decide (n < length out)%nat) as [Hn|Hn];
    [|rewrite !lookup_ge_None_2; [done|lia..]].
  destruct (IMG_BYTE_decompose (columns img) (rows img) (Z.of_nat n))
    as (r & c & b & Hr & Hc & Hb & Hoff); [done|unfold total_bytes in *; lia|].
  replace n with (Z.to_nat (IMG_BYTE (columns img) r c b)) by lia.
  destruct (decide ((r, c) ∈ l1)) as [Hp|Hp].
  - rewrite Hin1, Hin2; [done| |done..]. by apply Hsame.
  - assert (∀ l : list (Z * Z), Forall (λ p, 0 ≤ p.1 < rows img ∧ 0 ≤ p.2 < columns img) l →
              (r, c) ∉ l → ∀ r' c' b', (r', c') ∈ l → 0 ≤ b' < 4 →
              Z.to_nat (IMG_BYTE (columns img) r c b)
              ≠ Z.to_nat (IMG_BYTE (columns img) r' c' b')) as Hother.
    { intros l Hl Hnotin r' c' b' Hin' Hb' Heq.
      rewrite Forall_forall in Hl. destruct (Hl _ Hin') as [Hr' Hc']. simpl in *.
      apply Z2Nat.inj in Heq;
        [|pose proof (IMG_BYTE_bounds (columns img) (rows img) r c b); lia
         |pose proof (IMG_BYTE_bounds (columns img) (rows img) r' c' b'); lia].
      apply IMG_BYTE_inj in Heq; [|lia..].
      destruct Heq as (-> & -> & _). by apply Hnotin. }
    rewrite Hout1, Hout2; [done|..].
    + apply Hother; [done|]. by rewrite <- Hsame.
    + by apply Hother.
Qed.
End Pixel.

(** ** One worker *)

Lemma convolve_fold arguments o :
  convolve arguments o =
  foldl (λ o p, o ≫= pixel_body arguments p.1 p.2) o (worker_pixels arguments).
Proof. unfold convolve, worker_pixels. by rewrite rows_loop_fold. Qed.

Section Worker.
Variable arguments : thread_arguments_t.
Let img := input arguments.
Let k := kernel arguments.
Hypothesis Hcols : 1 ≤ columns img.
Hypothesis Hid : 0 ≤ thread_id arguments.
Hypothesis Hsize : 0 ≤ section_size arguments.

Lemma current_section_offset_nonneg : 0 ≤ current_section_offset arguments.
Proof. unfold current_section_offset. lia. Qed.

(** The start coordinates, with the divisions as floors. *)
Lemma start_coordinates :
  let byteOffset := current_section_offset arguments in
  let rowStart := byteOffset / (4 * columns img) in
  r_start arguments = rowStart ∧
  c_start arguments =
    (if bool_decide (rowStart > 0)
     then (byteOffset - 4 * columns img * rowStart) / 4 + 1
     else 0).
Proof.
  pose proof current_section_offset_nonneg as Hcur. simpl.
  unfold c_start, r_start. fold img.
  rewrite Z.quot_div_nonneg by lia.
  pose proof (Z.div_pos (current_section_offset arguments) (4 * columns img)).
  pose proof (Z.mul_div_le (current_section_offset arguments) (4 * columns img)).
  split; [done|].
  destruct (Z.eqb_spec (current_section_offset arguments / (4 * columns img)) 0) as [->|Hne];
    case_bool_decide; try lia.
  rewrite Z.quot_div_nonneg by lia. done.
Qed.

Lemma start_nonneg : 0 ≤ r_start arguments ∧ 0 ≤ c_start arguments.
Proof.
  pose proof current_section_offset_nonneg as Hcur.
  destruct start_coordinates as [-> ->].
  pose proof (Z.div_pos (current_section_offset arguments) (4 * columns img)).
  pose proof (Z.mul_div_le (current_section_offset arguments) (4 * columns img)).
  split; [lia|]. case_bool_decide; [|lia].
  assert (0 ≤ (current_section_offset arguments
               - 4 * columns img * (current_section_offset arguments / (4 * columns img))) / 4);
    [apply Z.div_pos|]; lia.
Qed.

Lemma worker_pixels_range p :
  p ∈ worker_pixels arguments →
  0 ≤ p.1 < rows img ∧ 0 ≤ p.2 < columns img ∧
  IMG_BYTE (columns img) p.1 p.2 0 ≤ next_section_offset arguments.
Proof.
  intros Hin. destruct start_nonneg as [Hr Hc].
  apply rows_loop_visited in Hin; [|done]. unfold img in *.
  destruct Hin as (? & ? & ?). split_and!; first [lia|done].
Qed.

Hypothesis Hwf : wf_image img.

Lemma convolve_spec out :
  Z.of_nat (length out) = total_bytes img →
  ∃ out', convolve arguments (Some out) = Some out' ∧
    length out' = length out ∧
    (∀ r c b, (r, c) ∈ worker_pixels arguments → 0 ≤ b < 4 →
       out' !! Z.to_nat (IMG_BYTE (columns img) r c b) = Some (output_channel img k r c b)) ∧
    (∀ n, (∀ r c b, (r, c) ∈ worker_pixels arguments → 0 ≤ b < 4 →
             n ≠ Z.to_nat (IMG_BYTE (columns img) r c b)) →
       out' !! n = out !! n).
Proof.
  intros Hlen. rewrite convolve_fold.
  apply write_pixels_spec; [done..|].
  apply Forall_forall. intros p Hp.
  apply worker_pixels_range in Hp as (? & ? & _). done.
Qed.
End Worker.

(** ** The pass of [main] *)

Section Pass.
Variables (img : image_t) (k : kernel_t) (N : Z).
Hypothesis Hwf : wf_image img.
Hypothesis Hfit : fits_int img.
Hypothesis HN : 1 ≤ N < 2 ^ 31.

Lemma main_section_size_eq :
  main_section_size img N = (rows img * columns img * 4 + 4 * columns img + 4) / N.
Proof.
  destruct Hwf as (Hr & Hc & _). unfold fits_int in Hfit.
  unfold main_section_size, wrap32, int_of_unsigned, IMG_BYTE.
  replace (columns img * 4 * rows img + 4 * columns img + 4)
    with (rows img * columns img * 4 + 4 * columns img + 4) by lia.
  set (T := rows img * columns img * 4 + 4 * columns img + 4) in *.
  assert (0 ≤ T) by (unfold T; nia).
  rewrite (Z.mod_small T), (Z.mod_small N) by lia.
  assert (0 ≤ T / N ≤ T).
  { split; [apply Z.div_pos; lia|]. apply Z.div_le_upper_bound; nia. }
  destruct (Z.ltb_spec (T / N) (2 ^ 31)); lia.
Qed.

Lemma main_section_size_nonneg : 0 ≤ main_section_size img N.
Proof.
  destruct Hwf as (Hr & Hc & _).
  rewrite main_section_size_eq. apply Z.div_pos; [nia|lia].
Qed.

Lemma thread_pixels_range i p :
  0 ≤ i → p ∈ thread_pixels img k N i →
  0 ≤ p.1 < rows img ∧ 0 ≤ p.2 < columns img.
Proof.
  intros Hi Hin. pose proof main_section_size_nonneg. destruct Hwf as (Hr & Hc & _).
  apply worker_pixels_range in Hin as (? & ? & _); done.
Qed.

Lemma threads_fold (ids : list Z) o :
  foldl (λ o i, convolve (main_thread_arguments img k N i) o) o ids =
  foldl (λ o p, o ≫= pixel_body (main_thread_arguments img k N 0) p.1 p.2)
    o (ids ≫= thread_pixels img k N).
Proof.
  revert o. induction ids as [|i ids IH]; intros o; simpl; [done|].
  rewrite foldl_app, <- IH, convolve_fold. done.
Qed.

Lemma run_threads_fold out :
  run_threads img k N out =
  foldl (λ o p, o ≫= pixel_body (main_thread_arguments img k N 0) p.1 p.2)
    (Some out) (seqZ 0 N ≫= thread_pixels img k N).
Proof. apply threads_fold. Qed.

(** The threads may finish in any order: the buffer is the one of
    [run_threads]. *)
Lemma run_threads_any_order (ids : list Z) out :
  ids ≡ₚ seqZ 0 N →
  Z.of_nat (length out) = total_bytes img →
  foldl (λ o i, convolve (main_thread_arguments img k N i) o) (Some out) ids =
  run_threads img k N out.
Proof.
  intros Hperm Hlen. rewrite run_threads_fold, threads_fold.
  assert (∀ l : list Z, l ≡ₚ seqZ 0 N →
            Forall (λ p, 0 ≤ p.1 < rows img ∧ 0 ≤ p.2 < columns img)
              (l ≫= thread_pixels img k N)) as Hrange.
  { intros l Hl. apply Forall_forall. intros p (i & Hp & Hi)%list_elem_of_bind.
    rewrite Hl in Hi. apply elem_of_seqZ in Hi.
    apply (thread_pixels_range i); [lia|done]. }
  apply (write_pixels_order (main_thread_arguments img k N 0) Hwf); [done|by apply Hrange..|].
  intros p. rewrite !list_elem_of_bind. by setoid_rewrite Hperm.
Qed.

(** The output buffer after the pass: the pixels some thread visited hold
    the convolved bytes, the other bytes are as they were. *)
Lemma run_threads_spec out :
  Z.of_nat (length out) = total_bytes img →
  ∃ out', run_threads img k N out = Some out' ∧
    length out' = length out ∧
    (∀ i r c b, 0 ≤ i < N → (r, c) ∈ thread_pixels img k N i → 0 ≤ b < 4 →
       out' !! Z.to_nat (IMG_BYTE (columns img) r c b) = Some (output_channel img k r c b)) ∧
    (∀ n, (∀ i r c b, 0 ≤ i < N → (r, c) ∈ thread_pixels img k N i → 0 ≤ b < 4 →
             n ≠ Z.to_nat (IMG_BYTE (columns img) r c b)) →
       out' !! n = out !! n).
Proof.
  intros Hlen. rewrite run_threads_fold.
  destruct (write_pixels_spec (main_thread_arguments img k N 0) Hwf
              (seqZ 0 N ≫= thread_pixels img k N) out Hlen)
    as (out' & Hrun & Hlen' & Hin & Hout).
  { apply Forall_forall. intros p (i & Hp & Hi%elem_of_seqZ)%list_elem_of_bind.
    apply (thread_pixels_range i); [lia|done]. }
  exists out'. split_and!; [done..| |].
  - intros i r c b Hi Hp Hb. apply Hin; [|done].
    apply list_elem_of_bind. exists i. split; [done|]. apply elem_of_seqZ. lia.
  - intros n Hn. apply Hout.
    intros r c b (i & Hp & Hi%elem_of_seqZ)%list_elem_of_bind Hb.
    apply (Hn i); [lia|done..].
Qed.
End Pass.

Lemma uniform_image_wf r c v :
  1 ≤ r → 1 ≤ c → 0 ≤ v < 256 → wf_image (uniform_image r c v).
Proof.
  intros Hr Hc Hv. unfold wf_image, total_bytes. simpl. split_and!; [done..| |].
  - rewrite length_replicate. lia.
  - by apply Forall_replicate.
Qed.

(** Thread 0 starts at pixel [(0, 0)] and visits every pixel that starts at
    or before the end of its section. *)
Lemma thread0_reaches img k N r c :
  1 ≤ columns img → 0 ≤ r < rows img → 0 ≤ c < columns img →
  IMG_BYTE (columns img) r c 0 ≤ main_section_size img N →
  (r, c) ∈ thread_pixels img k N 0.
Proof.
  intros Hcols Hr Hc Ha. unfold thread_pixels, worker_pixels.
  unfold c_start, r_start, next_section_offset, current_section_offset. simpl.
  rewrite Z.mul_0_r, Z.quot_0_l by lia. simpl.
  apply rows_loop_reaches; [lia..|done|lia].
Qed.

Lemma identity_output_channel img r c b :
  wf_image img → 0 ≤ r < rows img → 0 ≤ c < columns img → 0 ≤ b < 4 →
  output_channel img identity_kernel r c b = input_channel img r c b.
Proof.
  intros Hwf Hr Hc Hb. unfold output_channel. case_bool_decide as Hb3; [by subst|].
  pose proof (input_channel_byte (ThreadArguments 0 0 img identity_kernel) Hwf r c b Hr Hc Hb)
    as Hbyte. simpl in Hbyte.
  unfold convolved_channel, weighted_sum. simpl.
  change (normalization_factor identity_kernel) with 1. rewrite Z.quot_1_r.
  replace (clamp_to_range (r + 1 - 1) 0 (rows img - 1)) with r
    by (unfold clamp_to_range; lia).
  replace (clamp_to_range (c + 1 - 1) 0 (columns img - 1)) with c
    by (unfold clamp_to_range; lia).
  unfold clamp_to_range. lia.
Qed.

(** * The claims *)

(** C1, as stated, at a 1x1 image with one worker: the section size handed
    to the worker is 12, while [floor (rows * columns * 4 / N)] is 4. *)
Lemma section_size_is_not_total_bytes_over_N :
  main_section_size (uniform_image 1 1 0) 1 = 12 ∧
  total_bytes (uniform_image 1 1 0) / 1 = 4 ∧
  main_section_size (uniform_image 1 1 0) 1 ≠ total_bytes (uniform_image 1 1 0) / 1.
Proof. vm_compute. split_and!; [done..|]. discriminate. Qed.

(** C1, amended: for an image of [rows] x [columns] pixels and [N >= 1]
    workers, the section size handed to every worker is
    [S = floor ((rows * columns * 4 + 4 * columns + 4) / N)], the byte
    address [IMG_BYTE (columns, rows, columns, 4)] divided by [N], and
    worker [i] takes [i * S] and [(i + 1) * S] as its current and next
    section offsets. *)
Theorem section_size_and_offsets img k N i :
  wf_image img → fits_int img → 1 ≤ N < 2 ^ 31 → 0 ≤ i < N →
  let S := (rows img * columns img * 4 + 4 * columns img + 4) / N in
  let arguments := main_thread_arguments img k N i in
  section_size arguments = S ∧
  current_section_offset arguments = i * S ∧
  next_section_offset arguments = (i + 1) * S.
Proof.
  intros Hwf Hfit HN Hi. simpl.
  unfold next_section_offset, current_section_offset. simpl.
  rewrite main_section_size_eq by done. lia.
Qed.

Lemma section_size_and_offsets_witness :
  wf_image (uniform_image 2 2 0) ∧ fits_int (uniform_image 2 2 0) ∧
  1 ≤ 2 < 2 ^ 31 ∧ 0 ≤ 1 < 2 ∧
  section_size (main_thread_arguments (uniform_image 2 2 0) identity_kernel 2 1) = 14 ∧
  current_section_offset (main_thread_arguments (uniform_image 2 2 0) identity_kernel 2 1) = 14 ∧
  next_section_offset (main_thread_arguments (uniform_image 2 2 0) identity_kernel 2 1) = 28.
Proof.
  assert (wf_image (uniform_image 2 2 0)) as Hwf by (apply uniform_image_wf; lia).
  assert (fits_int (uniform_image 2 2 0)) as Hfit by (unfold fits_int; simpl; lia).
  do 2 (split; [done|]). do 2 (split; [lia|]).
  apply (section_size_and_offsets (uniform_image 2 2 0) identity_kernel 2 1); [done|done|lia|lia].
Defined.

(** C2 fails on the code.  On an 8x1 image with two workers (2 divides the
    32 bytes) thread 0 visits rows 0 to 5 and thread 1, whose first row
    yields no pixel and so never resets [c_start], visits nothing: pixels
    [(6, 0)] and [(7, 0)] are written by no worker.  On a 1x3 image with
    three workers, threads 0 and 1 both start in row 0, hence at column 0,
    and pixel [(0, 0)] is written twice. *)
Theorem partition_misses_and_repeats_pixels (k : kernel_t) :
  thread_pixels (uniform_image 8 1 0) k 2 0 = [(0, 0); (1, 0); (2, 0); (3, 0); (4, 0); (5, 0)] ∧
  thread_pixels (uniform_image 8 1 0) k 2 1 = [] ∧
  visits (uniform_image 8 1 0) k 2 6 0 = 0%nat ∧
  visits (uniform_image 8 1 0) k 2 7 0 = 0%nat ∧
  thread_pixels (uniform_image 1 3 0) k 3 0 = [(0, 0); (0, 1); (0, 2)] ∧
  thread_pixels (uniform_image 1 3 0) k 3 1 = [(0, 0); (0, 1); (0, 2)] ∧
  visits (uniform_image 1 3 0) k 3 0 0 = 2%nat.
Proof. vm_compute. done. Qed.

(** C3 fails on the code.  On the 8x4 all-255 image with the identity kernel
    and a zeroed output buffer, one worker fills the 128 bytes; with four
    workers thread 3 starts at column 4 of row 6, visits nothing, and the 16
    bytes of row 7 stay as they were. *)
Theorem four_workers_differ_from_one :
  run_threads (uniform_image 8 4 255) identity_kernel 1 (replicate 128 0)
    = Some (replicate 128 255) ∧
  run_threads (uniform_image 8 4 255) identity_kernel 4 (replicate 128 0)
    = Some (replicate 112 255 ++ replicate 16 0) ∧
  thread_pixels (uniform_image 8 4 255) identity_kernel 4 3 = [] ∧
  Forall (λ c, visits (uniform_image 8 4 255) identity_kernel 4 7 c = 0%nat) [0; 1; 2; 3] ∧
  run_threads (uniform_image 8 4 255) identity_kernel 1 (replicate 128 0)
    ≠ run_threads (uniform_image 8 4 255) identity_kernel 4 (replicate 128 0).
Proof.
  assert (run_threads (uniform_image 8 4 255) identity_kernel 1 (replicate 128 0)
          = Some (replicate 128 255)) as H1 by (by vm_compute).
  assert (run_threads (uniform_image 8 4 255) identity_kernel 4 (replicate 128 0)
          = Some (replicate 112 255 ++ replicate 16 0)) as H4 by (by vm_compute).
  split_and!; [done|done|by vm_compute|by repeat constructor|].
  rewrite H1, H4. intros Heq.
  apply (f_equal (λ o, o ≫= (.!! 112%nat))) in Heq. vm_compute in Heq. discriminate.
Qed.

(** C4 fails on the code.  On the 8x4 image all of whose bytes are 255, with
    the identity kernel of the catalog, four workers and an output buffer
    that held zeros, the output is not the input: thread 3 starts at column 4
    of row 6, never resets [c_start] and visits nothing, so the 16 bytes of
    row 7 are never written.  The pixels that are visited do receive the
    input bytes. *)
Theorem identity_pass_differs_from_input :
  entry_kernel <$> find_entry_by_name DEFAULT_KERNEL_NAME = Some identity_kernel ∧
  pixels (uniform_image 8 4 255) = replicate 128 255 ∧
  run_threads (uniform_image 8 4 255) identity_kernel 4 (replicate 128 0)
    = Some (replicate 112 255 ++ replicate 16 0) ∧
  run_threads (uniform_image 8 4 255) identity_kernel 4 (replicate 128 0)
    ≠ Some (pixels (uniform_image 8 4 255)).
Proof.
  assert (run_threads (uniform_image 8 4 255) identity_kernel 4 (replicate 128 0)
          = Some (replicate 112 255 ++ replicate 16 0)) as Hrun by (by vm_compute).
  split_and!; [done|done|done|].
  rewrite Hrun. intros Heq.
  apply (f_equal (λ o, o ≫= (.!! 112%nat))) in Heq. vm_compute in Heq. discriminate.
Qed.

(** X22.  With the identity kernel of the catalog, every pixel a worker
    visits receives the four bytes of the input pixel, for every worker
    count, and the pass of one worker, which visits every pixel, gives an
    output buffer equal to the input buffer. *)
Theorem identity_kernel_reproduces_input img N out :
  wf_image img → fits_int img → 1 ≤ N < 2 ^ 31 →
  length out = length (pixels img) →
  entry_kernel <$> find_entry_by_name DEFAULT_KERNEL_NAME = Some identity_kernel ∧
  ∃ out', run_threads img identity_kernel N out = Some out' ∧
    (∀ i r c b, 0 ≤ i < N → (r, c) ∈ thread_pixels img identity_kernel N i → 0 ≤ b < 4 →
       out' !! Z.to_nat (IMG_BYTE (columns img) r c b)
       = pixels img !! Z.to_nat (IMG_BYTE (columns img) r c b)) ∧
    (N = 1 → out' = pixels img).
Proof.
  intros Hwf Hfit HN Hlen. split; [done|].
  pose proof Hwf as (Hrows & Hcols & Hlen_in & _).
  destruct (run_threads_spec img identity_kernel N Hwf Hfit HN out)
    as (out' & Hrun & Hlen' & Hin & _); [lia|].
  assert (∀ i r c b, 0 ≤ i < N → (r, c) ∈ thread_pixels img identity_kernel N i →
            0 ≤ b < 4 →
            out' !! Z.to_nat (IMG_BYTE (columns img) r c b)
            = pixels img !! Z.to_nat (IMG_BYTE (columns img) r c b)) as Hsame.
  { intros i r c b Hi Hp Hb. rewrite (Hin i r c b) by done.
    apply (thread_pixels_range img identity_kernel N Hwf Hfit HN i) in Hp as [Hr Hc]; [|lia].
    simpl in Hr, Hc. rewrite identity_output_channel by done.
    unfold input_channel. symmetry. apply list_lookup_lookup_total_lt.
    pose proof (IMG_BYTE_bounds (columns img) (rows img) r c b Hr Hc Hb).
    unfold total_bytes, IMG_BYTE in *. lia. }
  exists out'. split_and!; [done..|].
  intros ->. apply list_eq. intros n.
  destruct (decide (n < length (pixels img))%nat) as [Hn|Hn].
  - destruct (IMG_BYTE_decompose (columns img) (rows img) (Z.of_nat n))
      as (r & c & b & Hr & Hc & Hb & Hoff); [lia|unfold total_bytes in *; lia|].
    replace n with (Z.to_nat (IMG_BYTE (columns img) r c b)) by lia.
    apply (Hsame 0); [lia| |done].
    apply thread0_reaches; [done..|].
    rewrite main_section_size_eq by done. rewrite Z.div_1_r.
    unfold IMG_BYTE. nia.
  - rewrite !lookup_ge_None_2; [done|lia..].
Qed.

Lemma identity_kernel_reproduces_input_witness :
  wf_image (uniform_image 2 3 7) ∧ fits_int (uniform_image 2 3 7) ∧
  1 ≤ 1 < 2 ^ 31 ∧
  length (replicate 24 0) = length (pixels (uniform_image 2 3 7)) ∧
  run_threads (uniform_image 2 3 7) identity_kernel 1 (replicate 24 0)
    = Some (pixels (uniform_image 2 3 7)).
Proof.
  assert (wf_image (uniform_image 2 3 7)) as Hwf by (apply uniform_image_wf; lia).
  assert (fits_int (uniform_image 2 3 7)) as Hfit by (unfold fits_int; simpl; lia).
  do 2 (split; [done|]). split; [lia|]. split; [done|].
  destruct (identity_kernel_reproduces_input (uniform_image 2 3 7) 1 (replicate 24 0))
    as (_ & out' & Hrun & _ & Hall); [done|done|lia|done|].
  rewrite Hrun. f_equal. by apply Hall.
Defined.

(** C5: for every pixel [(r, c)] a worker processes and every channel [b]
    other than alpha, the byte the worker leaves in the output buffer is
    the sum over the nine taps [(kr, kc)] of [weight kr kc] times the input
    channel at [(clamp (r + kr - 1) 0 (rows - 1),
    clamp (c + kc - 1) 0 (columns - 1))], divided by the normalization
    factor with a quotient truncated toward zero, clamped into [0, 255]. *)
Theorem convolve_rgb_channel arguments out r c b :
  wf_image (input arguments) →
  0 ≤ thread_id arguments → 0 ≤ section_size arguments →
  Z.of_nat (length out) = total_bytes (input arguments) →
  (r, c) ∈ worker_pixels arguments → 0 ≤ b < 3 →
  ∃ out', convolve arguments (Some out) = Some out' ∧
    out' !! Z.to_nat (IMG_BYTE (columns (input arguments)) r c b) =
    Some (clamp_to_range
            (weighted_sum (input arguments) (kernel arguments) r c b
               ÷ normalization_factor (kernel arguments)) 0 255).
Proof.
  intros Hwf Hid Hsize Hlen Hp Hb. pose proof Hwf as (_ & Hcols & _).
  destruct (convolve_spec arguments Hcols Hid Hsize Hwf out Hlen)
    as (out' & Hrun & _ & Hin & _).
  exists out'. split; [done|].
  rewrite (Hin r c b) by (done || lia).
  unfold output_channel. case_bool_decide; [lia|done].
Qed.

Lemma convolve_rgb_channel_witness :
  let arguments :=
    ThreadArguments 0 12 (Image [10; 20; 30; 40] 1 1) (Kernel 0 (-1) 0 (-1) 5 (-1) 0 (-1) 0) in
  wf_image (input arguments) ∧
  0 ≤ thread_id arguments ∧ 0 ≤ section_size arguments ∧
  Z.of_nat (length [0; 0; 0; 0]) = total_bytes (input arguments) ∧
  (0, 0) ∈ worker_pixels arguments ∧ 0 ≤ 1 < 3 ∧
  ∃ out', convolve arguments (Some [0; 0; 0; 0]) = Some out' ∧
    out' !! Z.to_nat (IMG_BYTE (columns (input arguments)) 0 0 1) =
    Some (clamp_to_range
            (weighted_sum (input arguments) (kernel arguments) 0 0 1
               ÷ normalization_factor (kernel arguments)) 0 255).
Proof.
  intros arguments.
  assert (wf_image (input arguments)) as Hwf.
  { unfold wf_image, total_bytes. simpl. split_and!; [lia..|].
    repeat (apply Forall_cons; split; [lia|]). apply Forall_nil_2. }
  assert ((0, 0) ∈ worker_pixels arguments) as Hp by (vm_compute; apply list_elem_of_here).
  split; [done|]. do 2 (split; [simpl; lia|]). split; [done|]. split; [done|]. split; [lia|].
  apply (convolve_rgb_channel arguments [0; 0; 0; 0] 0 0 1); [done|simpl; lia|simpl; lia|done|done|lia].
Defined.

(** C6: for every pixel a worker processes, whatever the kernel, the alpha
    byte of the output pixel is the alpha byte of the input pixel at the
    same row and column. *)
Theorem convolve_alpha_channel arguments out r c :
  wf_image (input arguments) →
  0 ≤ thread_id arguments → 0 ≤ section_size arguments →
  Z.of_nat (length out) = total_bytes (input arguments) →
  (r, c) ∈ worker_pixels arguments →
  ∃ out' alpha, convolve arguments (Some out) = Some out' ∧
    pixels (input arguments)
      !! Z.to_nat (IMG_BYTE (columns (input arguments)) r c ALPHA_OFFSET) = Some alpha ∧
    out' !! Z.to_nat (IMG_BYTE (columns (input arguments)) r c ALPHA_OFFSET) = Some alpha.
Proof.
  intros Hwf Hid Hsize Hlen Hp. pose proof Hwf as (_ & Hcols & Hlen_in & _).
  destruct (convolve_spec arguments Hcols Hid Hsize Hwf out Hlen)
    as (out' & Hrun & _ & Hin & _).
  exists out', (input_channel (input arguments) r c 3). split; [done|].
  apply worker_pixels_range in Hp as Hrange; [|done..].
  destruct Hrange as (Hr & Hc & _). simpl in Hr, Hc.
  split.
  - unfold input_channel. apply list_lookup_lookup_total_lt.
    pose proof (IMG_BYTE_bounds (columns (input arguments)) (rows (input arguments)) r c 3).
    unfold total_bytes, IMG_BYTE in *. lia.
  - by rewrite (Hin r c 3) by (done || lia).
Qed.

Lemma convolve_alpha_channel_witness :
  let arguments :=
    ThreadArguments 0 12 (Image [10; 20; 30; 40] 1 1) (Kernel 0 (-1) 0 (-1) 5 (-1) 0 (-1) 0) in
  wf_image (input arguments) ∧
  0 ≤ thread_id arguments ∧ 0 ≤ section_size arguments ∧
  Z.of_nat (length [0; 0; 0; 0]) = total_bytes (input arguments) ∧
  (0, 0) ∈ worker_pixels arguments ∧
  ∃ out' alpha, convolve arguments (Some [0; 0; 0; 0]) = Some out' ∧
    pixels (input arguments)
      !! Z.to_nat (IMG_BYTE (columns (input arguments)) 0 0 ALPHA_OFFSET) = Some alpha ∧
    out' !! Z.to_nat (IMG_BYTE (columns (input arguments)) 0 0 ALPHA_OFFSET) = Some alpha.
Proof.
  intros arguments.
  assert (wf_image (input arguments)) as Hwf.
  { unfold wf_image, total_bytes. simpl. split_and!; [lia..|].
    repeat (apply Forall_cons; split; [lia|]). apply Forall_nil_2. }
  assert ((0, 0) ∈ worker_pixels arguments) as Hp by (vm_compute; apply list_elem_of_here).
  split; [done|]. do 2 (split; [simpl; lia|]). split; [done|]. split; [done|].
  apply (convolve_alpha_channel arguments [0; 0; 0; 0] 0 0); [done|simpl; lia|simpl; lia|done|done].
Defined.

(** C7: [normalize_kernel] of a 3x3 integer kernel is the sum of its nine
    weights when that sum is not zero and 1 when it is zero; so it is never
    zero, in particular for the kernels of the catalog.  The function is a
    function of its argument alone. *)
Theorem normalize_kernel_spec (k : kernel_t) :
  normalize_kernel k =
    (if bool_decide (sum_of_weights k = 0) then 1 else sum_of_weights k) ∧
  normalize_kernel k ≠ 0 ∧
  Forall (λ entry, normalize_kernel (entry_kernel entry) ≠ 0) kernel_catalog.
Proof.
  split; [apply normalize_kernel_factor|]. split.
  - rewrite normalize_kernel_factor. apply normalization_factor_nonzero.
  - apply Forall_forall. intros entry _.
    rewrite normalize_kernel_factor. apply normalization_factor_nonzero.
Qed.

(** C8 fails on the code.  On an 8x1 image with two workers, thread 1 starts
    at byte offset 20: row 5, column [0 / 4 + 1 = 1], as the claim says.
    Column 1 is past the row, so the inner loop never runs its body,
    [c_start] keeps its value, and rows 6 and 7 are entered at column 1
    too, not at column 0: the thread visits no pixel. *)
Theorem start_column_kept_after_empty_row (k : kernel_t) :
  let arguments := main_thread_arguments (uniform_image 8 1 0) k 2 1 in
  current_section_offset arguments = 20 ∧
  r_start arguments = 5 ∧ c_start arguments = 1 ∧
  worker_row_entries arguments = [(5, 1); (6, 1); (7, 1)] ∧
  worker_pixels arguments = [].
Proof. vm_compute. done. Qed.

(** C9: on a 1x1 image, whatever the kernel and the worker count, the nine
    taps of every channel read the single pixel, no read leaves the buffer
    (the pass ends with a buffer, not with a failed access), and the red,
    green and blue bytes of the output are the sum of the nine weights times
    the channel of the pixel, divided by the normalization factor with a
    truncated quotient and clamped into [0, 255]; alpha is copied. *)
Theorem single_pixel_image k v0 v1 v2 v3 N out :
  0 ≤ v0 < 256 → 0 ≤ v1 < 256 → 0 ≤ v2 < 256 → 0 ≤ v3 < 256 →
  1 ≤ N < 2 ^ 31 → length out = 4%nat →
  let single v := clamp_to_range ((sum_of_weights k * v) ÷ normalization_factor k) 0 255 in
  (∀ kr kc b, 0 ≤ kr < 3 → 0 ≤ kc < 3 → 0 ≤ b < 4 →
     IMG_BYTE 1 (CLAMP (0 + (kr - half_dim)) 0 (1 - 1))
                (CLAMP (0 + (kc - half_dim)) 0 (1 - 1)) b = b) ∧
  run_threads (Image [v0; v1; v2; v3] 1 1) k N out
  = Some [single v0; single v1; single v2; v3].
Proof.
  intros H0 H1 H2 H3 HN Hlen single. split.
  { intros kr kc b Hkr Hkc Hb.
    pose proof (CLAMP_bounds (0 + (kr - half_dim)) 0 (1 - 1)).
    pose proof (CLAMP_bounds (0 + (kc - half_dim)) 0 (1 - 1)).
    unfold IMG_BYTE. lia. }
  set (img := Image [v0; v1; v2; v3] 1 1).
  assert (wf_image img) as Hwf.
  { unfold wf_image, total_bytes. simpl. split_and!; [lia..|].
    repeat (apply Forall_cons; split; [lia|]). apply Forall_nil_2. }
  assert (fits_int img) as Hfit by (unfold fits_int; simpl; lia).
  destruct (run_threads_spec img k N Hwf Hfit HN out)
    as (out' & Hrun & Hlen' & Hin & _); [unfold total_bytes; simpl; lia|].
  rewrite Hrun. f_equal.
  assert ((0, 0) ∈ thread_pixels img k N 0) as Hp.
  { apply thread0_reaches; simpl; [lia..|].
    pose proof (main_section_size_nonneg img N Hwf Hfit HN). unfold IMG_BYTE. lia. }
  pose proof (Hin 0 0 0 0 ltac:(lia) Hp ltac:(lia)) as Hb0.
  pose proof (Hin 0 0 0 1 ltac:(lia) Hp ltac:(lia)) as Hb1.
  pose proof (Hin 0 0 0 2 ltac:(lia) Hp ltac:(lia)) as Hb2.
  pose proof (Hin 0 0 0 3 ltac:(lia) Hp ltac:(lia)) as Hb3.
  rewrite Hlen in Hlen'.
  destruct out' as [|o0 [|o1 [|o2 [|o3 [|? ?]]]]]; try discriminate Hlen'.
  change (Z.to_nat (IMG_BYTE (columns img) 0 0 0)) with 0%nat in Hb0.
  change (Z.to_nat (IMG_BYTE (columns img) 0 0 1)) with 1%nat in Hb1.
  change (Z.to_nat (IMG_BYTE (columns img) 0 0 2)) with 2%nat in Hb2.
  change (Z.to_nat (IMG_BYTE (columns img) 0 0 3)) with 3%nat in Hb3.
  simpl in Hb0, Hb1, Hb2, Hb3.
  injection Hb0 as ->. injection Hb1 as ->. injection Hb2 as ->. injection Hb3 as ->.
  assert (∀ x, clamp_to_range x 0 (1 - 1) = 0) as Hclamp
    by (intros x; unfold clamp_to_range; lia).
  assert (∀ b, 0 ≤ b < 3 →
            output_channel img k 0 0 b = single (input_channel img 0 0 b)) as Hrgb.
  { intros b Hb. unfold output_channel. case_bool_decide; [lia|].
    unfold convolved_channel, single. do 2 f_equal.
    unfold weighted_sum, taps, sum_of_weights.
    cbn [fmap list_fmap foldr fst snd rows columns img]. rewrite !Hclamp.
    destruct k; simpl. ring. }
  rewrite !Hrgb by lia. done.
Qed.

Lemma single_pixel_image_witness :
  0 ≤ 100 < 256 ∧ 0 ≤ 200 < 256 ∧ 0 ≤ 50 < 256 ∧ 0 ≤ 255 < 256 ∧
  1 ≤ 3 < 2 ^ 31 ∧ length [0; 0; 0; 0] = 4%nat ∧
  run_threads (Image [100; 200; 50; 255] 1 1)
    (Kernel (-1) (-1) (-1) (-1) 8 (-1) (-1) (-1) (-1)) 3 [0; 0; 0; 0]
  = Some [0; 0; 0; 255] ∧
  run_threads (Image [100; 200; 50; 255] 1 1) (Kernel 1 2 1 2 4 2 1 2 1) 3 [0; 0; 0; 0]
  = Some [100; 200; 50; 255].
Proof.
  do 5 (split; [lia|]). split; [done|]. split.
  - refine (proj2 (single_pixel_image (Kernel (-1) (-1) (-1) (-1) 8 (-1) (-1) (-1) (-1))
                     100 200 50 255 3 [0; 0; 0; 0] _ _ _ _ _ _)); [lia..|done].
  - refine (proj2 (single_pixel_image (Kernel 1 2 1 2 4 2 1 2 1)
                     100 200 50 255 3 [0; 0; 0; 0] _ _ _ _ _ _)); [lia..|done].
Defined.

(** C10: for every image of at least one row and one column and every worker
    count [N >= 1], each worker writes only at offsets below
    [rows * columns * 4], although its section may reach past the end of the
    buffer: every pixel it visits has [0 <= r < rows] and [0 <= c < columns],
    no access of the worker leaves a buffer, and a worker whose section
    starts at or after the end of the buffer writes nothing. *)
Theorem writes_stay_in_buffer img k N i out :
  wf_image img → fits_int img → 1 ≤ N < 2 ^ 31 → 0 ≤ i < N →
  Z.of_nat (length out) = total_bytes img →
  let arguments := main_thread_arguments img k N i in
  (∀ r c b, (r, c) ∈ worker_pixels arguments → 0 ≤ b < 4 →
     0 ≤ r < rows img ∧ 0 ≤ c < columns img ∧
     0 ≤ IMG_BYTE (columns img) r c b < rows img * columns img * 4) ∧
  (∃ out', convolve arguments (Some out) = Some out' ∧ length out' = length out) ∧
  (rows img * columns img * 4 ≤ current_section_offset arguments →
     worker_pixels arguments = [] ∧ convolve arguments (Some out) = Some out).
Proof.
  intros Hwf Hfit HN Hi Hlen arguments.
  pose proof Hwf as (Hrows & Hcols & _).
  pose proof (main_section_size_nonneg img N Hwf Hfit HN) as Hsize.
  split_and!.
  - intros r c b Hp Hb.
    apply (thread_pixels_range img k N Hwf Hfit HN i) in Hp as [Hr Hc]; [|lia].
    simpl in Hr, Hc. do 2 (split; [done|]). by apply IMG_BYTE_bounds.
  - destruct (convolve_spec arguments) with (out := out) as (out' & Hrun & Hlen' & _);
      try done; [simpl; lia|]. by exists out'.
  - intros Hpast.
    destruct (start_coordinates arguments) as [Hr _]; [done|simpl; lia|done|].
    simpl in Hr.
    assert (rows img ≤ r_start arguments).
    { rewrite Hr. apply Z.div_le_lower_bound; lia. }
    unfold worker_pixels, convolve.
    replace (Z.to_nat (rows (input arguments) - r_start arguments)) with 0%nat
      by (simpl; lia).
    done.
Qed.

Lemma writes_stay_in_buffer_witness :
  wf_image (uniform_image 2 2 9) ∧ fits_int (uniform_image 2 2 9) ∧
  1 ≤ 2 < 2 ^ 31 ∧ 0 ≤ 1 < 2 ∧
  Z.of_nat (length (replicate 16 0)) = total_bytes (uniform_image 2 2 9) ∧
  ∃ out', convolve (main_thread_arguments (uniform_image 2 2 9) identity_kernel 2 1)
            (Some (replicate 16 0)) = Some out' ∧
          length out' = length (replicate 16 0).
Proof.
  assert (wf_image (uniform_image 2 2 9)) as Hwf by (apply uniform_image_wf; lia).
  assert (fits_int (uniform_image 2 2 9)) as Hfit by (unfold fits_int; simpl; lia).
  do 2 (split; [done|]). do 2 (split; [lia|]). split; [done|].
  apply (writes_stay_in_buffer (uniform_image 2 2 9) identity_kernel 2 1 (replicate 16 0));
    [done|done|lia|lia|done].
Defined.


(** * Further properties of the code *)

(** ** The addressing scheme *)

Lemma offset_coordinates cols nrows n :
  1 ≤ cols → 0 ≤ n < nrows * cols * 4 →
  0 ≤ offset_row cols n < nrows ∧ 0 ≤ offset_column cols n < cols ∧
  0 ≤ offset_channel n < 4 ∧
  IMG_BYTE cols (offset_row cols n) (offset_column cols n) (offset_channel n) = n.
Proof.
  intros Hcols Hn. unfold offset_row, offset_column, offset_channel.
  pose proof (Z.div_mod n 4). pose proof (Z.mod_pos_bound n 4).
  pose proof (Z.div_mod (n / 4) cols). pose proof (Z.mod_pos_bound (n / 4) cols).
  assert (0 ≤ n / 4) by (apply Z.div_pos; lia).
  assert (0 ≤ n / 4 / cols) by (apply Z.div_pos; lia).
  assert (n / 4 / cols < nrows) by (apply Z.div_lt_upper_bound; [lia|]; nia).
  unfold IMG_BYTE. split_and!; lia.
Qed.

Lemma offset_of_IMG_BYTE cols r c b :
  0 ≤ c < cols → 0 ≤ b < 4 →
  offset_row cols (IMG_BYTE cols r c b) = r ∧
  offset_column cols (IMG_BYTE cols r c b) = c ∧
  offset_channel (IMG_BYTE cols r c b) = b.
Proof.
  intros Hc Hb. unfold offset_row, offset_column, offset_channel, IMG_BYTE.
  assert ((cols * 4 * r + 4 * c + b) / 4 = cols * r + c) as ->.
  { symmetry. apply (Z.div_unique _ _ _ b); lia. }
  split_and!.
  - symmetry. apply (Z.div_unique _ _ _ c); lia.
  - symmetry. apply (Z.mod_unique _ _ r); lia.
  - symmetry. apply (Z.mod_unique _ _ (cols * r + c)); lia.
Qed.

(** X1.  [IMG_BYTE] numbers the channels of the pixels of a [nrows] x [cols]
    image by the offsets [0 .. nrows * cols * 4 - 1], each offset once: every
    channel of a pixel of the image has an offset in the buffer, from which
    row, column and channel are recovered, and every offset of the buffer is
    the offset of the channel of a pixel. *)
Theorem IMG_BYTE_bijection cols nrows :
  1 ≤ cols →
  (∀ r c b, 0 ≤ r < nrows → 0 ≤ c < cols → 0 ≤ b < 4 →
     0 ≤ IMG_BYTE cols r c b < nrows * cols * 4 ∧
     offset_row cols (IMG_BYTE cols r c b) = r ∧
     offset_column cols (IMG_BYTE cols r c b) = c ∧
     offset_channel (IMG_BYTE cols r c b) = b) ∧
  (∀ n, 0 ≤ n < nrows * cols * 4 →
     0 ≤ offset_row cols n < nrows ∧ 0 ≤ offset_column cols n < cols ∧
     0 ≤ offset_channel n < 4 ∧
     IMG_BYTE cols (offset_row cols n) (offset_column cols n) (offset_channel n) = n).
Proof.
  intros Hcols. split.
  - intros r c b Hr Hc Hb. split; [by apply IMG_BYTE_bounds|by apply offset_of_IMG_BYTE].
  - intros n Hn. by apply offset_coordinates.
Qed.

Lemma IMG_BYTE_bijection_witness :
  1 ≤ 3 ∧ IMG_BYTE 3 1 2 3 = 23 ∧ offset_row 3 23 = 1 ∧ offset_column 3 23 = 2 ∧
  offset_channel 23 = 3.
Proof.
  split; [lia|].
  destruct (IMG_BYTE_bijection 3 2 ltac:(lia)) as [Hto _].
  destruct (Hto 1 2 3 ltac:(lia) ltac:(lia) ltac:(lia)) as (_ & Hr & Hc & Hb).
  by split_and!.
Defined.

(** ** The pixels of one worker *)

Section LoopExact.
Variables (cols nrows next : Z).

Lemma cols_loop_nothing {A} (body : Z → Z → A → A) fuel r c cs a :
  ¬ (c < cols ∧ IMG_BYTE cols r c 0 ≤ next) →
  cols_loop cols next body fuel r c cs a = (cs, a).
Proof. intros Hno. destruct fuel as [|fuel]; simpl; [done|]. split_guard; [lia|done..]. Qed.

(** When the first pixel of a worker is not visited, nothing is: no row
    resets [c_start]. *)
Lemma rows_loop_nothing fuel r cs :
  0 ≤ cols → ¬ (cs < cols ∧ IMG_BYTE cols r cs 0 ≤ next) →
  rows_loop cols nrows next visit fuel r cs [] = [].
Proof.
  intros Hcols. revert r. induction fuel as [|fuel IH]; intros r Hno; simpl; [done|].
  split_guard; try done.
  rewrite cols_loop_nothing by (rewrite Z.add_0_l; done).
  apply IH. unfold IMG_BYTE in *. nia.
Qed.

Lemma rows_loop_exact fuel r0 cs p :
  0 ≤ r0 < nrows → 0 ≤ cs < cols → IMG_BYTE cols r0 cs 0 ≤ next →
  (Z.to_nat (nrows - r0) ≤ fuel)%nat →
  p ∈ rows_loop cols nrows next visit fuel r0 cs [] ↔
  0 ≤ p.1 < nrows ∧ 0 ≤ p.2 < cols ∧
  IMG_BYTE cols r0 cs 0 ≤ IMG_BYTE cols p.1 p.2 0 ≤ next.
Proof.
  intros Hr0 Hcs Hfirst Hfuel. destruct fuel as [|fuel]; [lia|]. simpl.
  assert (IMG_BYTE cols r0 0 0 ≤ IMG_BYTE cols r0 cs 0) by (unfold IMG_BYTE; lia).
  split_guard; try lia.
  pose proof (cols_loop_reaches cols next (Z.to_nat (cols - (0 + cs))) r0 (0 + cs) cs cs)
    as [_ Hreset]; [lia|done|lia|].
  pose proof (cols_loop_visited cols next (Z.to_nat (cols - (0 + cs))) r0 (0 + cs) cs p)
    as Hvisited.
  pose proof (λ c, cols_loop_reaches cols next (Z.to_nat (cols - (0 + cs))) r0 (0 + cs) cs c)
    as Hreaches.
  destruct (cols_loop cols next visit _ r0 (0 + cs) cs []) as [cs' l]; simpl in *.
  subst cs'. rewrite rows_loop_visit_app, elem_of_app.
  destruct p as [r c]; simpl in *. split.
  - intros [Hin|Hin].
    + apply Hvisited in Hin as (-> & ? & ?). unfold IMG_BYTE in *. lia.
    + apply rows_loop_visited in Hin; [|lia]. simpl in Hin. unfold IMG_BYTE in *. nia.
  - intros (Hr & Hc & Ha).
    destruct (decide (r = r0)) as [->|Hne].
    + left. apply Hreaches; [|lia..]. unfold IMG_BYTE in *. lia.
    + right. apply rows_loop_reaches; [|lia..]. unfold IMG_BYTE in *. nia.
Qed.

Lemma rows_loop_rows fuel r cs p :
  p ∈ rows_loop cols nrows next visit fuel r cs [] → r ≤ p.1.
Proof.
  revert r cs. induction fuel as [|fuel IH]; intros r cs; simpl.
  - by intros ?%elem_of_nil.
  - split_guard; try by intros ?%elem_of_nil.
    pose proof (cols_loop_visited cols next (Z.to_nat (cols - (0 + cs))) r (0 + cs) cs p) as Hrow.
    destruct (cols_loop cols next visit _ r (0 + cs) cs []) as [cs' l]; simpl in *.
    rewrite rows_loop_visit_app.
    intros [Hin|Hin]%elem_of_app; [apply Hrow in Hin; lia|].
    apply IH in Hin. lia.
Qed.

Lemma cols_loop_NoDup fuel r c cs :
  NoDup (cols_loop cols next visit fuel r c cs []).2.
Proof.
  revert c cs. induction fuel as [|fuel IH]; intros c cs; simpl; [apply NoDup_nil_2|].
  split_guard; try apply NoDup_nil_2.
  rewrite cols_loop_visit_app; simpl. apply NoDup_cons. split; [|apply IH].
  intros Hin%cols_loop_visited. simpl in Hin. lia.
Qed.

Lemma rows_loop_NoDup fuel r cs :
  NoDup (rows_loop cols nrows next visit fuel r cs []).
Proof.
  revert r cs. induction fuel as [|fuel IH]; intros r cs; simpl; [apply NoDup_nil_2|].
  split_guard; try apply NoDup_nil_2.
  pose proof (cols_loop_NoDup (Z.to_nat (cols - (0 + cs))) r (0 + cs) cs) as Hnd.
  pose proof (cols_loop_visited cols next (Z.to_nat (cols - (0 + cs))) r (0 + cs) cs) as Hrow.
  destruct (cols_loop cols next visit _ r (0 + cs) cs []) as [cs' l]; simpl in *.
  rewrite rows_loop_visit_app. apply NoDup_app. split_and!; [done| |apply IH].
  intros p Hp Hp'. apply Hrow in Hp. apply rows_loop_rows in Hp'. lia.
Qed.
End LoopExact.

Lemma worker_pixels_iff arguments r c :
  1 ≤ columns (input arguments) →
  0 ≤ thread_id arguments → 0 ≤ section_size arguments →
  (r, c) ∈ worker_pixels arguments ↔
  0 ≤ r < rows (input arguments) ∧ 0 ≤ c < columns (input arguments) ∧
  c_start arguments < columns (input arguments) ∧
  IMG_BYTE (columns (input arguments)) (r_start arguments) (c_start arguments) 0
    ≤ IMG_BYTE (columns (input arguments)) r c 0 ≤ next_section_offset arguments.
Proof.
  intros Hcols Hid Hsize.
  destruct (start_nonneg arguments Hcols Hid Hsize) as [Hr0 Hc0].
  unfold worker_pixels.
  destruct (decide (r_start arguments < rows (input arguments) ∧
                    c_start arguments < columns (input arguments) ∧
                    IMG_BYTE (columns (input arguments)) (r_start arguments)
                      (c_start arguments) 0 ≤ next_section_offset arguments))
    as [(Hr & Hc & Ha)|Hno].
  - rewrite rows_loop_exact by (done || lia). simpl. tauto.
  - destruct (decide (r_start arguments < rows (input arguments))) as [Hr|Hr].
    + rewrite rows_loop_nothing by (lia || tauto).
      split; [by intros ?%elem_of_nil|]. intros (_ & _ & ? & ? & ?).
      exfalso. apply Hno. lia.
    + replace (Z.to_nat (rows (input arguments) - r_start arguments)) with 0%nat by lia.
      simpl. split; [by intros ?%elem_of_nil|].
      unfold IMG_BYTE. intros (? & ? & ? & ? & ?). exfalso. nia.
Qed.

(** X2.  What a worker visits: the pixels of the image from its start pixel
    [(r_start, c_start)] on, in row-major order, up to the last pixel whose
    first byte is at or before [next_section_offset]; and nothing at all
    when the start column is past the row. *)
Theorem worker_pixels_exact arguments r c :
  1 ≤ columns (input arguments) →
  0 ≤ thread_id arguments → 0 ≤ section_size arguments →
  (r, c) ∈ worker_pixels arguments ↔
  0 ≤ r < rows (input arguments) ∧ 0 ≤ c < columns (input arguments) ∧
  c_start arguments < columns (input arguments) ∧
  IMG_BYTE (columns (input arguments)) (r_start arguments) (c_start arguments) 0
    ≤ IMG_BYTE (columns (input arguments)) r c 0 ≤ next_section_offset arguments.
Proof. apply worker_pixels_iff. Qed.

Lemma worker_pixels_exact_witness :
  let arguments := main_thread_arguments (uniform_image 4 4 0) identity_kernel 4 1 in
  1 ≤ columns (input arguments) ∧ 0 ≤ thread_id arguments ∧ 0 ≤ section_size arguments ∧
  (r_start arguments, c_start arguments) = (1, 2) ∧
  next_section_offset arguments = 42 ∧
  (2, 2) ∈ worker_pixels arguments ∧ (2, 3) ∉ worker_pixels arguments.
Proof.
  intros arguments.
  assert (1 ≤ columns (input arguments)) as H1 by (simpl; lia).
  assert (0 ≤ thread_id arguments) as H2 by (simpl; lia).
  assert (0 ≤ section_size arguments) as H3 by (vm_compute; discriminate).
  do 3 (split; [done|]). do 2 (split; [by vm_compute|]). split.
  - apply (worker_pixels_exact arguments 2 2 H1 H2 H3). vm_compute.
    split_and!; (discriminate || reflexivity).
  - intros Hin. apply (worker_pixels_exact arguments 2 3 H1 H2 H3) in Hin.
    destruct Hin as (_ & _ & _ & _ & Hnext). vm_compute in Hnext. by apply Hnext.
Defined.

Lemma worker_pixels_nodup arguments : NoDup (worker_pixels arguments).
Proof. apply rows_loop_NoDup. Qed.

(** X3.  A worker visits no pixel twice. *)
Theorem worker_pixels_NoDup arguments : NoDup (worker_pixels arguments).
Proof. apply worker_pixels_nodup. Qed.

(** ** What a worker leaves in the output buffer *)

Section Buffer.
Variable arguments : thread_arguments_t.
Let img := input arguments.
Let k := kernel arguments.
Hypothesis Hwf : wf_image img.

(** Byte [n] of the buffer after the writes of the pixels of [l]. *)
Lemma write_pixels_lookup (l : list (Z * Z)) out out' n :
  Z.of_nat (length out) = total_bytes img →
  Forall (λ p, 0 ≤ p.1 < rows img ∧ 0 ≤ p.2 < columns img) l →
  foldl (λ o p, o ≫= pixel_body arguments p.1 p.2) (Some out) l = Some out' →
  (n < length out)%nat →
  out' !! n =
    if decide ((offset_row (columns img) (Z.of_nat n),
                offset_column (columns img) (Z.of_nat n)) ∈ l)
    then Some (output_channel img k
                 (offset_row (columns img) (Z.of_nat n))
                 (offset_column (columns img) (Z.of_nat n))
                 (offset_channel (Z.of_nat n)))
    else out !! n.
Proof.
  intros Hlen Hl Hrun Hn. pose proof Hwf as (_ & Hcols & _).
  destruct (write_pixels_spec arguments Hwf l out Hlen Hl) as (out1 & Hrun1 & _ & Hin & Hout).
  fold img k in Hin, Hout. rewrite Hrun in Hrun1. injection Hrun1 as <-.
  destruct (offset_coordinates (columns img) (rows img) (Z.of_nat n))
    as (Hr & Hc & Hb & Hoff); [done|unfold total_bytes in *; lia|].
  set (r := offset_row (columns img) (Z.of_nat n)) in *.
  set (c := offset_column (columns img) (Z.of_nat n)) in *.
  set (b := offset_channel (Z.of_nat n)) in *.
  assert (n = Z.to_nat (IMG_BYTE (columns img) r c b)) as Hn' by lia.
  destruct (decide ((r, c) ∈ l)) as [Hp|Hp].
  { rewrite Hn' at 1. by apply Hin. }
  apply Hout. intros r' c' b' Hin' Hb' Heq. rewrite Hn' in Heq.
  rewrite Forall_forall in Hl. destruct (Hl _ Hin') as [Hr' Hc']. simpl in *.
  apply Z2Nat.inj in Heq;
    [|lia|pose proof (IMG_BYTE_bounds (columns img) (rows img) r' c' b'); lia].
  apply IMG_BYTE_inj in Heq; [|lia..].
  destruct Heq as (-> & -> & _). by apply Hp.
Qed.
End Buffer.

Lemma worker_pixels_Forall arguments :
  1 ≤ columns (input arguments) →
  0 ≤ thread_id arguments → 0 ≤ section_size arguments →
  Forall (λ p, 0 ≤ p.1 < rows (input arguments) ∧ 0 ≤ p.2 < columns (input arguments))
    (worker_pixels arguments).
Proof.
  intros Hcols Hid Hsize. apply Forall_forall. intros p Hp.
  apply worker_pixels_range in Hp as (? & ? & _); done.
Qed.

Lemma convolve_lookup arguments out n :
  wf_image (input arguments) →
  0 ≤ thread_id arguments → 0 ≤ section_size arguments →
  Z.of_nat (length out) = total_bytes (input arguments) →
  (n < length out)%nat →
  let r := offset_row (columns (input arguments)) (Z.of_nat n) in
  let c := offset_column (columns (input arguments)) (Z.of_nat n) in
  let b := offset_channel (Z.of_nat n) in
  ∃ out', convolve arguments (Some out) = Some out' ∧
    length out' = length out ∧
    out' !! n =
      if decide ((r, c) ∈ worker_pixels arguments)
      then Some (output_channel (input arguments) (kernel arguments) r c b)
      else out !! n.
Proof.
  intros Hwf Hid Hsize Hlen Hn r c b. pose proof Hwf as (_ & Hcols & _).
  destruct (convolve_spec arguments Hcols Hid Hsize Hwf out Hlen)
    as (out' & Hrun & Hlen' & _).
  exists out'. split_and!; [done..|].
  apply (write_pixels_lookup arguments Hwf (worker_pixels arguments) out); [done| |by rewrite <- convolve_fold|done].
  by apply worker_pixels_Forall.
Qed.

(** X4.  The output buffer after a worker: the worker succeeds without
    leaving a buffer, keeps the length, gives each byte of a pixel it visited
    the value computed from the input image and the kernel alone, and leaves
    every other byte as it was. *)
Theorem convolve_buffer arguments out n :
  wf_image (input arguments) →
  0 ≤ thread_id arguments → 0 ≤ section_size arguments →
  Z.of_nat (length out) = total_bytes (input arguments) →
  (n < length out)%nat →
  let r := offset_row (columns (input arguments)) (Z.of_nat n) in
  let c := offset_column (columns (input arguments)) (Z.of_nat n) in
  let b := offset_channel (Z.of_nat n) in
  ∃ out', convolve arguments (Some out) = Some out' ∧
    length out' = length out ∧
    out' !! n =
      if decide ((r, c) ∈ worker_pixels arguments)
      then Some (output_channel (input arguments) (kernel arguments) r c b)
      else out !! n.
Proof. apply convolve_lookup. Qed.

Lemma convolve_buffer_witness :
  let arguments := main_thread_arguments (uniform_image 2 2 9) identity_kernel 2 1 in
  wf_image (input arguments) ∧ 0 ≤ thread_id arguments ∧ 0 ≤ section_size arguments ∧
  Z.of_nat (length (replicate 16 0)) = total_bytes (input arguments) ∧
  (5 < length (replicate 16 0))%nat ∧
  ∃ out', convolve arguments (Some (replicate 16 0)) = Some out' ∧
    length out' = length (replicate 16 0) ∧ out' !! 5%nat = Some 0.
Proof.
  intros arguments.
  assert (wf_image (input arguments)) as Hwf by (apply uniform_image_wf; lia).
  assert (0 ≤ section_size arguments) as Hsize by (vm_compute; discriminate).
  split; [done|]. split; [simpl; lia|]. split; [done|]. split; [done|].
  split; [simpl; lia|].
  apply (convolve_buffer arguments (replicate 16 0) 5 Hwf); [simpl; lia|done|done|simpl; lia].
Defined.

(** X5.  The value a worker computes for a channel is within [0 .. 255]
    before it is stored: red, green and blue are clamped after the division,
    whatever the kernel and the weighted sum, and alpha is a byte of the
    input.  The conversion to [pixel_t] of the store therefore changes
    nothing. *)
Theorem channel_value_is_byte arguments r c b v :
  Forall (λ x, 0 ≤ x < 256) (pixels (input arguments)) →
  channel_value arguments r c b = Some v →
  0 ≤ v ≤ 255 ∧ pixel_of_int v = v.
Proof.
  intros Hbytes Hv.
  assert (0 ≤ v ≤ 255) as Hrange; [|split; [done|apply pixel_of_int_byte; lia]].
  unfold channel_value in Hv. destruct (b =? 3).
  - unfold load in Hv. destruct (_ <? 0); [done|].
    apply list_elem_of_lookup_2 in Hv. rewrite Forall_forall in Hbytes.
    apply Hbytes in Hv. lia.
  - destruct (for_each _ _ 0) as [value|]; [|done]. simpl in Hv.
    injection Hv as <-. apply CLAMP_bounds. lia.
Qed.

Lemma channel_value_is_byte_witness :
  let arguments :=
    ThreadArguments 0 20 (Image [200; 10; 0; 255; 0; 90; 0; 255] 1 2)
      (Kernel 0 0 0 0 5 (-4) 0 0 0) in
  Forall (λ x, 0 ≤ x < 256) (pixels (input arguments)) ∧
  channel_value arguments 0 0 0 = Some 255 ∧
  channel_value arguments 0 0 1 = Some 0 ∧
  0 ≤ 255 ≤ 255 ∧ pixel_of_int 255 = 255.
Proof.
  intros arguments.
  assert (Forall (λ x, 0 ≤ x < 256) (pixels (input arguments))) as Hbytes.
  { repeat (apply Forall_cons; split; [lia|]). apply Forall_nil_2. }
  assert (channel_value arguments 0 0 0 = Some 255) as Hred by (by vm_compute).
  split; [done|]. split; [done|]. split; [by vm_compute|].
  apply (channel_value_is_byte arguments 0 0 0 255 Hbytes Hred).
Defined.

(** X6.  Running a worker a second time on the buffer it produced changes
    nothing: what it writes does not depend on the output buffer. *)
Theorem convolve_idempotent arguments out :
  wf_image (input arguments) →
  0 ≤ thread_id arguments → 0 ≤ section_size arguments →
  Z.of_nat (length out) = total_bytes (input arguments) →
  convolve arguments (convolve arguments (Some out)) = convolve arguments (Some out).
Proof.
  intros Hwf Hid Hsize Hlen. pose proof Hwf as (_ & Hcols & _).
  pose proof (worker_pixels_Forall arguments Hcols Hid Hsize) as Hrange.
  rewrite !convolve_fold, <- foldl_app.
  apply (write_pixels_order arguments Hwf); [done|by apply Forall_app|done|].
  intros p. rewrite elem_of_app. tauto.
Qed.

Lemma convolve_idempotent_witness :
  let arguments := main_thread_arguments (uniform_image 2 2 9) identity_kernel 2 0 in
  wf_image (input arguments) ∧ 0 ≤ thread_id arguments ∧ 0 ≤ section_size arguments ∧
  Z.of_nat (length (replicate 16 0)) = total_bytes (input arguments) ∧
  convolve arguments (convolve arguments (Some (replicate 16 0)))
  = convolve arguments (Some (replicate 16 0)).
Proof.
  intros arguments.
  assert (wf_image (input arguments)) as Hwf by (apply uniform_image_wf; lia).
  assert (0 ≤ section_size arguments) as Hsize by (vm_compute; discriminate).
  split; [done|]. split; [simpl; lia|]. split; [done|]. split; [done|].
  apply (convolve_idempotent arguments (replicate 16 0) Hwf); [simpl; lia|done|done].
Defined.

(** X7.  The buffer after the pass does not depend on the order in which
    the threads run: whatever the order in which the [N] workers are run to
    completion, the buffer is the one obtained in the order of creation. *)
Theorem threads_in_any_order img k N (ids : list Z) out :
  wf_image img → fits_int img → 1 ≤ N < 2 ^ 31 →
  ids ≡ₚ seqZ 0 N →
  Z.of_nat (length out) = total_bytes img →
  foldl (λ o i, convolve (main_thread_arguments img k N i) o) (Some out) ids =
  run_threads img k N out.
Proof. intros Hwf Hfit HN Hperm Hlen. by apply run_threads_any_order. Qed.

Lemma threads_in_any_order_witness :
  wf_image (uniform_image 4 4 7) ∧ fits_int (uniform_image 4 4 7) ∧ 1 ≤ 3 < 2 ^ 31 ∧
  [2; 0; 1] ≡ₚ seqZ 0 3 ∧
  Z.of_nat (length (replicate 64 0)) = total_bytes (uniform_image 4 4 7) ∧
  foldl (λ o i, convolve (main_thread_arguments (uniform_image 4 4 7) identity_kernel 3 i) o)
    (Some (replicate 64 0)) [2; 0; 1] =
  run_threads (uniform_image 4 4 7) identity_kernel 3 (replicate 64 0).
Proof.
  assert (wf_image (uniform_image 4 4 7)) as Hwf by (apply uniform_image_wf; lia).
  assert (fits_int (uniform_image 4 4 7)) as Hfit by (unfold fits_int; simpl; lia).
  assert ([2; 0; 1] ≡ₚ seqZ 0 3) as Hperm.
  { change (seqZ 0 3) with [0; 1; 2].
    etrans; [apply Permutation_swap|]. apply perm_skip, Permutation_swap. }
  do 2 (split; [done|]). split; [lia|]. split; [done|]. split; [done|].
  apply (threads_in_any_order (uniform_image 4 4 7) identity_kernel 3 [2; 0; 1]); [done|done|lia|done|done].
Defined.

(** ** The whole pass *)

Lemma convolved_image_length img k :
  length (convolved_image img k) = Z.to_nat (total_bytes img).
Proof. unfold convolved_image. by rewrite length_fmap, length_seqZ. Qed.

Lemma convolved_image_lookup img k n :
  (n < Z.to_nat (total_bytes img))%nat →
  convolved_image img k !! n =
  Some (output_channel img k
          (offset_row (columns img) (Z.of_nat n))
          (offset_column (columns img) (Z.of_nat n))
          (offset_channel (Z.of_nat n))).
Proof.
  intros Hn. unfold convolved_image.
  rewrite list_lookup_fmap, lookup_seqZ_lt by lia. done.
Qed.

(** When every pixel is visited by some thread, the pass leaves the
    convolution of the image in the output buffer. *)
Lemma run_threads_covering img k N out :
  wf_image img → fits_int img → 1 ≤ N < 2 ^ 31 →
  Z.of_nat (length out) = total_bytes img →
  (∀ r c, 0 ≤ r < rows img → 0 ≤ c < columns img →
     ∃ i, 0 ≤ i < N ∧ (r, c) ∈ thread_pixels img k N i) →
  run_threads img k N out = Some (convolved_image img k).
Proof.
  intros Hwf Hfit HN Hlen Hcover. pose proof Hwf as (_ & Hcols & _).
  destruct (run_threads_spec img k N Hwf Hfit HN out Hlen) as (out' & Hrun & Hlen' & _).
  rewrite Hrun. f_equal. apply list_eq. intros n.
  destruct (decide (n < length out)%nat) as [Hn|Hn].
  - rewrite run_threads_fold in Hrun.
    rewrite (write_pixels_lookup (main_thread_arguments img k N 0) Hwf
               (seqZ 0 N ≫= thread_pixels img k N) out out' n Hlen);
      [|apply Forall_forall; intros p (i & Hp & Hi%elem_of_seqZ)%list_elem_of_bind;
        apply (thread_pixels_range img k N Hwf Hfit HN i); [lia|done]
       |done..].
    rewrite convolved_image_lookup by lia. simpl.
    destruct (offset_coordinates (columns img) (rows img) (Z.of_nat n))
      as (Hr & Hc & _); [done|unfold total_bytes in *; lia|].
    case_decide as Hin; [done|]. exfalso. apply Hin.
    destruct (Hcover _ _ Hr Hc) as (i & Hi & Hp).
    apply list_elem_of_bind. exists i. split; [done|]. apply elem_of_seqZ. lia.
  - rewrite !lookup_ge_None_2; [done|rewrite convolved_image_length; lia|lia].
Qed.

Lemma count_absent {A} `{EqDecision A} (x : A) l :
  x ∉ l → length (filter (x =.) l) = 0%nat.
Proof.
  intros Hx. destruct (filter (x =.) l) as [|y l'] eqn:E; [done|].
  assert (y ∈ filter (x =.) l) as Hy by (rewrite E; left).
  apply list_elem_of_filter in Hy as [<- Hy]. done.
Qed.

Lemma count_once {A} `{EqDecision A} (x : A) l :
  NoDup l → x ∈ l → length (filter (x =.) l) = 1%nat.
Proof.
  induction 1 as [|y l Hy Hnd IH]; [by intros ?%elem_of_nil|].
  intros [->|Hx]%elem_of_cons.
  - rewrite filter_cons_True by done. simpl. by rewrite count_absent.
  - rewrite filter_cons_False by (intros ->; done). by apply IH.
Qed.

Lemma single_worker_reaches img k r c :
  wf_image img → fits_int img →
  0 ≤ r < rows img → 0 ≤ c < columns img → (r, c) ∈ thread_pixels img k 1 0.
Proof.
  intros Hwf Hfit Hr Hc. pose proof Hwf as (Hrows & Hcols & _).
  apply thread0_reaches; [done..|].
  rewrite main_section_size_eq by (done || lia). rewrite Z.div_1_r.
  unfold IMG_BYTE. nia.
Qed.

Lemma single_worker_full img k out :
  wf_image img → fits_int img →
  Z.of_nat (length out) = total_bytes img →
  run_threads img k 1 out = Some (convolved_image img k).
Proof.
  intros Hwf Hfit Hlen. apply run_threads_covering; [done|done|lia|done|].
  intros r c Hr Hc. exists 0. split; [lia|by apply single_worker_reaches].
Qed.

(** X8.  One worker, the default of [main], convolves the whole image: it
    visits every pixel exactly once, and whatever the output buffer held,
    each of its bytes ends as the convolved channel of its pixel (alpha
    copied). *)
Theorem single_worker_convolves_image img k out :
  wf_image img → fits_int img →
  Z.of_nat (length out) = total_bytes img →
  run_threads img k 1 out = Some (convolved_image img k) ∧
  ∀ r c, 0 ≤ r < rows img → 0 ≤ c < columns img → visits img k 1 r c = 1%nat.
Proof.
  intros Hwf Hfit Hlen. split; [by apply single_worker_full|].
  intros r c Hr Hc. unfold visits. change (seqZ 0 1) with [0]. simpl.
  unfold visits_by.
  rewrite count_once; [done|apply worker_pixels_nodup|by apply single_worker_reaches].
Qed.

Lemma single_worker_convolves_image_witness :
  wf_image (uniform_image 2 2 100) ∧ fits_int (uniform_image 2 2 100) ∧
  Z.of_nat (length (replicate 16 0)) = total_bytes (uniform_image 2 2 100) ∧
  run_threads (uniform_image 2 2 100) (Kernel (-1) (-1) (-1) (-1) 8 (-1) (-1) (-1) (-1)) 1
    (replicate 16 0)
  = Some [0; 0; 0; 100; 0; 0; 0; 100; 0; 0; 0; 100; 0; 0; 0; 100].
Proof.
  assert (wf_image (uniform_image 2 2 100)) as Hwf by (apply uniform_image_wf; lia).
  assert (fits_int (uniform_image 2 2 100)) as Hfit by (unfold fits_int; simpl; lia).
  do 2 (split; [done|]). split; [done|].
  refine (proj1 (single_worker_convolves_image (uniform_image 2 2 100)
                   (Kernel (-1) (-1) (-1) (-1) 8 (-1) (-1) (-1) (-1)) (replicate 16 0) _ _ _));
    done.
Defined.

(** ** When the sections partition the image *)

(** A worker whose section starts below the first row starts at the first
    pixel after its section offset. *)
Lemma first_pixel_after arguments :
  1 ≤ columns (input arguments) →
  0 ≤ thread_id arguments → 0 ≤ section_size arguments →
  4 * columns (input arguments) ≤ current_section_offset arguments →
  1 ≤ r_start arguments ∧ 1 ≤ c_start arguments ≤ columns (input arguments) ∧
  current_section_offset arguments
    < IMG_BYTE (columns (input arguments)) (r_start arguments) (c_start arguments) 0
    ≤ current_section_offset arguments + 4.
Proof.
  intros Hcols Hid Hsize Hbelow.
  destruct (start_coordinates arguments Hcols Hid Hsize) as [Hr Hc]. simpl in Hr, Hc.
  set (cur := current_section_offset arguments) in *.
  set (W := 4 * columns (input arguments)) in *.
  assert (1 ≤ cur / W) by (apply Z.div_le_lower_bound; lia).
  rewrite bool_decide_eq_true_2 in Hc by lia.
  pose proof (Z.div_mod cur W ltac:(lia)) as Hdm.
  pose proof (Z.mod_pos_bound cur W ltac:(lia)) as Hmod.
  replace (cur - W * (cur / W)) with (cur mod W) in Hc by lia.
  pose proof (Z.div_mod (cur mod W) 4 ltac:(lia)).
  pose proof (Z.mod_pos_bound (cur mod W) 4 ltac:(lia)).
  rewrite Hr, Hc. unfold IMG_BYTE. unfold W in *. split_and!; lia.
Qed.

Section Partition.
Variables (img : image_t) (k : kernel_t) (N : Z).
Hypothesis Hwf : wf_image img.
Hypothesis Hfit : fits_int img.
Hypothesis HN : 1 ≤ N < 2 ^ 31.

Let S := main_section_size img N.

(** Where the pixels of thread [i] start: at or before the end of its
    section, and after its beginning when the section starts below the first
    row. *)
Lemma thread_pixels_bounds i r c :
  0 ≤ i → (r, c) ∈ thread_pixels img k N i →
  IMG_BYTE (columns img) r c 0 ≤ (i + 1) * S ∧
  (4 * columns img ≤ i * S → i * S < IMG_BYTE (columns img) r c 0).
Proof.
  intros Hi Hp. pose proof Hwf as (_ & Hcols & _).
  pose proof (main_section_size_nonneg img N Hwf Hfit HN) as Hsize.
  apply worker_pixels_iff in Hp as (_ & _ & _ & Hfirst & Hnext); [|done..].
  unfold next_section_offset, current_section_offset in Hnext. simpl in *.
  fold S in Hnext. split; [lia|]. intros Hbelow.
  destruct (first_pixel_after (main_thread_arguments img k N i)) as (_ & _ & Hafter & _);
    [done..|unfold current_section_offset; simpl; fold S; lia|].
  unfold current_section_offset in Hafter. simpl in Hafter. fold S in Hafter. lia.
Qed.

(** Thread [i >= 1] visits the pixels that start in [(i * S, (i + 1) * S]],
    unless its start column is past the row while rows remain. *)
Lemma thread_pixels_visits i r c :
  1 ≤ i → 4 * columns img ≤ i * S →
  0 ≤ r < rows img → 0 ≤ c < columns img →
  i * S < IMG_BYTE (columns img) r c 0 ≤ (i + 1) * S →
  c_start (main_thread_arguments img k N i) < columns img ∨
    rows img ≤ r_start (main_thread_arguments img k N i) + 1 →
  (r, c) ∈ thread_pixels img k N i.
Proof.
  intros Hi Hbelow Hr Hc Ha Hstart. pose proof Hwf as (_ & Hcols & _).
  pose proof (main_section_size_nonneg img N Hwf Hfit HN) as Hsize.
  destruct (first_pixel_after (main_thread_arguments img k N i))
    as (Hr1 & Hc1 & Hafter & Hnear);
    [done|simpl; lia|done|unfold current_section_offset; simpl; fold S; lia|].
  unfold current_section_offset in Hafter, Hnear. simpl in *. fold S in Hafter, Hnear.
  apply worker_pixels_iff; [done|simpl; lia|done|]. simpl.
  unfold next_section_offset, current_section_offset. simpl. fold S.
  set (r0 := r_start (main_thread_arguments img k N i)) in *.
  set (c0 := c_start (main_thread_arguments img k N i)) in *.
  assert (IMG_BYTE (columns img) r0 c0 0 ≤ IMG_BYTE (columns img) r c 0)
    by (unfold IMG_BYTE in *; lia).
  split_and!; try lia.
  destruct Hstart as [?|Hlast]; [done|].
  destruct (decide (c0 < columns img)); [done|]. exfalso.
  unfold IMG_BYTE in *. nia.
Qed.

(** The thread in whose section a pixel starts. *)
Lemma partition_covers r c :
  4 * columns img ≤ S →
  (∀ i, 1 ≤ i < N →
     c_start (main_thread_arguments img k N i) < columns img ∨
     rows img ≤ r_start (main_thread_arguments img k N i) + 1) →
  0 ≤ r < rows img → 0 ≤ c < columns img →
  IMG_BYTE (columns img) r c 0 ≤ N * S →
  ∃ i, 0 ≤ i < N ∧ (r, c) ∈ thread_pixels img k N i ∧
       ∀ j, 0 ≤ j < N → (r, c) ∈ thread_pixels img k N j → j = i.
Proof.
  intros Hbelow Hstart Hr Hc Hlast. pose proof Hwf as (_ & Hcols & _).
  set (a := IMG_BYTE (columns img) r c 0) in *.
  destruct (decide (a ≤ S)) as [Hfirst|Hlater].
  - exists 0. split; [lia|]. split; [by apply thread0_reaches|].
    intros j Hj Hp. apply thread_pixels_bounds in Hp as [_ Hafter]; [|lia].
    destruct (decide (j = 0)) as [|Hne]; [done|]. exfalso. fold a in Hafter. nia.
  - set (i := (a - 1) / S).
    assert (S * i ≤ a - 1 < S * (i + 1)) as Hi.
    { unfold i. split; [apply Z.mul_div_le; lia|].
      pose proof (Z.mul_succ_div_gt (a - 1) S ltac:(lia)). lia. }
    assert (1 ≤ i) by (unfold i; apply Z.div_le_lower_bound; lia).
    assert (i < N) by nia.
    exists i. split; [lia|]. split.
    + apply thread_pixels_visits; [done|nia|done|done|fold a; lia|apply Hstart; lia].
    + intros j Hj Hp. apply thread_pixels_bounds in Hp as [Hend Hafter]; [|lia].
      fold a in Hend, Hafter.
      destruct (decide (j = i)) as [|Hne]; [done|]. exfalso.
      destruct (decide (j < i)); [nia|].
      assert (4 * columns img ≤ j * S) by nia. specialize (Hafter ltac:(done)). nia.
Qed.
End Partition.

Lemma sum_list_one (f : Z → nat) (l : list Z) i :
  NoDup l → i ∈ l → f i = 1%nat → (∀ j, j ∈ l → j ≠ i → f j = 0%nat) →
  sum_list (f <$> l) = 1%nat.
Proof.
  intros Hnd. revert i. induction Hnd as [|x l Hx Hnd IH]; intros i Hi Hone Hzero.
  - by apply elem_of_nil in Hi.
  - simpl. apply elem_of_cons in Hi as [->|Hi].
    + rewrite Hone. f_equal.
      clear IH Hone. induction l as [|y l IHl]; simpl; [done|].
      rewrite Hzero; [|by right; left|intros ->; apply Hx; by left]. simpl.
      apply IHl.
      * intros Hin. apply Hx. by right.
      * by apply NoDup_cons in Hnd as [_ ?].
      * intros j Hj Hne. apply Hzero; [|done].
        apply elem_of_cons in Hj as [->|Hj]; [by left|by do 2 right].
    + rewrite (Hzero x); [|by left|intros ->; done]. simpl.
      apply (IH i); [done..|]. intros j Hj Hne. apply Hzero; [by right|done].
Qed.

(** X9.  Two threads share no pixel when the section of the later one starts
    below the first row of the image. *)
Theorem later_thread_disjoint img k N i j r c :
  wf_image img → fits_int img → 1 ≤ N < 2 ^ 31 →
  0 ≤ i < j → j < N →
  4 * columns img ≤ j * main_section_size img N →
  (r, c) ∈ thread_pixels img k N i → (r, c) ∉ thread_pixels img k N j.
Proof.
  intros Hwf Hfit HN Hi Hj Hbelow Hpi Hpj.
  pose proof (main_section_size_nonneg img N Hwf Hfit HN) as Hsize.
  apply (thread_pixels_bounds img k N Hwf Hfit HN) in Hpi as [Hend _]; [|lia].
  apply (thread_pixels_bounds img k N Hwf Hfit HN) in Hpj as [_ Hafter]; [|lia].
  specialize (Hafter Hbelow). nia.
Qed.

Lemma later_thread_disjoint_witness :
  wf_image (uniform_image 4 4 0) ∧ fits_int (uniform_image 4 4 0) ∧ 1 ≤ 4 < 2 ^ 31 ∧
  0 ≤ 0 < 1 ∧ 1 < 4 ∧
  4 * columns (uniform_image 4 4 0) ≤ 1 * main_section_size (uniform_image 4 4 0) 4 ∧
  (1, 1) ∈ thread_pixels (uniform_image 4 4 0) identity_kernel 4 0 ∧
  (1, 1) ∉ thread_pixels (uniform_image 4 4 0) identity_kernel 4 1.
Proof.
  assert (wf_image (uniform_image 4 4 0)) as Hwf by (apply uniform_image_wf; lia).
  assert (fits_int (uniform_image 4 4 0)) as Hfit by (unfold fits_int; simpl; lia).
  assert (4 * columns (uniform_image 4 4 0) ≤ 1 * main_section_size (uniform_image 4 4 0) 4)
    as Hbelow by (vm_compute; discriminate).
  assert ((1, 1) ∈ thread_pixels (uniform_image 4 4 0) identity_kernel 4 0) as Hp.
  { vm_compute. do 5 apply list_elem_of_further. apply list_elem_of_here. }
  do 2 (split; [done|]). do 3 (split; [lia|]). do 2 (split; [done|]).
  apply (later_thread_disjoint (uniform_image 4 4 0) identity_kernel 4 0 1 1 1);
    [done|done|lia|lia|lia|done|done].
Defined.

(** X10.  When the section size is at least one row and no thread starts at
    a column past its row while rows remain below, every pixel that starts
    at or before the end of the last section is visited by exactly one
    thread, once. *)
Theorem partition_exactly_once img k N r c :
  wf_image img → fits_int img → 1 ≤ N < 2 ^ 31 →
  4 * columns img ≤ main_section_size img N →
  (∀ i, 1 ≤ i < N →
     c_start (main_thread_arguments img k N i) < columns img ∨
     rows img ≤ r_start (main_thread_arguments img k N i) + 1) →
  0 ≤ r < rows img → 0 ≤ c < columns img →
  IMG_BYTE (columns img) r c 0 ≤ N * main_section_size img N →
  visits img k N r c = 1%nat ∧
  ∃ i, 0 ≤ i < N ∧ (r, c) ∈ thread_pixels img k N i ∧
       ∀ j, 0 ≤ j < N → (r, c) ∈ thread_pixels img k N j → j = i.
Proof.
  intros Hwf Hfit HN Hbelow Hstart Hr Hc Hlast.
  destruct (partition_covers img k N Hwf Hfit HN r c Hbelow Hstart Hr Hc Hlast)
    as (i & Hi & Hp & Huniq).
  split; [|by exists i].
  unfold visits. apply (sum_list_one _ _ i).
  - apply NoDup_seqZ.
  - apply elem_of_seqZ. lia.
  - unfold visits_by. apply count_once; [apply worker_pixels_nodup|done].
  - intros j Hj%elem_of_seqZ Hne. unfold visits_by. apply count_absent.
    intros Hpj. apply Hne, Huniq; [lia|done].
Qed.

Lemma partition_exactly_once_witness :
  wf_image (uniform_image 4 4 0) ∧ fits_int (uniform_image 4 4 0) ∧ 1 ≤ 4 < 2 ^ 31 ∧
  4 * columns (uniform_image 4 4 0) ≤ main_section_size (uniform_image 4 4 0) 4 ∧
  (∀ i, 1 ≤ i < 4 →
     c_start (main_thread_arguments (uniform_image 4 4 0) identity_kernel 4 i)
       < columns (uniform_image 4 4 0) ∨
     rows (uniform_image 4 4 0)
       ≤ r_start (main_thread_arguments (uniform_image 4 4 0) identity_kernel 4 i) + 1) ∧
  0 ≤ 3 < rows (uniform_image 4 4 0) ∧ 0 ≤ 3 < columns (uniform_image 4 4 0) ∧
  IMG_BYTE (columns (uniform_image 4 4 0)) 3 3 0 ≤ 4 * main_section_size (uniform_image 4 4 0) 4 ∧
  visits (uniform_image 4 4 0) identity_kernel 4 3 3 = 1%nat.
Proof.
  assert (wf_image (uniform_image 4 4 0)) as Hwf by (apply uniform_image_wf; lia).
  assert (fits_int (uniform_image 4 4 0)) as Hfit by (unfold fits_int; simpl; lia).
  assert (4 * columns (uniform_image 4 4 0) ≤ main_section_size (uniform_image 4 4 0) 4)
    as Hbelow by (vm_compute; discriminate).
  assert (∀ i, 1 ≤ i < 4 →
            c_start (main_thread_arguments (uniform_image 4 4 0) identity_kernel 4 i)
              < columns (uniform_image 4 4 0) ∨
            rows (uniform_image 4 4 0)
              ≤ r_start (main_thread_arguments (uniform_image 4 4 0) identity_kernel 4 i) + 1)
    as Hstart.
  { intros i Hi. assert (i = 1 ∨ i = 2 ∨ i = 3) as [-> | [-> | ->]] by lia.
    - left. by vm_compute.
    - left. by vm_compute.
    - right. vm_compute. discriminate. }
  assert (IMG_BYTE (columns (uniform_image 4 4 0)) 3 3 0
          ≤ 4 * main_section_size (uniform_image 4 4 0) 4) as Hlast
    by (vm_compute; discriminate).
  do 2 (split; [done|]). split; [lia|]. do 2 (split; [done|]).
  do 2 (split; [simpl; lia|]). split; [done|].
  refine (proj1 (partition_exactly_once (uniform_image 4 4 0) identity_kernel 4 3 3
                   Hwf Hfit _ Hbelow Hstart _ _ Hlast)); simpl; lia.
Defined.

Lemma pass_invariance img k N out :
  wf_image img → fits_int img → 1 ≤ N < 2 ^ 31 →
  Z.of_nat (length out) = total_bytes img →
  4 * columns img ≤ main_section_size img N →
  (∀ i, 1 ≤ i < N →
     c_start (main_thread_arguments img k N i) < columns img ∨
     rows img ≤ r_start (main_thread_arguments img k N i) + 1) →
  total_bytes img - 4 ≤ N * main_section_size img N →
  run_threads img k N out = Some (convolved_image img k) ∧
  run_threads img k N out = run_threads img k 1 out.
Proof.
  intros Hwf Hfit HN Hlen Hbelow Hstart Hlast.
  assert (run_threads img k N out = Some (convolved_image img k)) as Hrun.
  { apply run_threads_covering; [done..|]. intros r c Hr Hc.
    destruct (partition_covers img k N Hwf Hfit HN r c Hbelow Hstart Hr Hc)
      as (i & Hi & Hp & _); [|by exists i].
    pose proof (IMG_BYTE_bounds (columns img) (rows img) r c 0 Hr Hc).
    unfold total_bytes, IMG_BYTE in *. lia. }
  split; [done|]. rewrite Hrun. symmetry.
  by apply single_worker_full.
Qed.

(** X11.  Under the same two conditions, and when the sections reach the
    last pixel, the pass with [N] workers leaves the convolution of the
    whole image in the output buffer, the buffer the pass with one worker
    leaves. *)
Theorem worker_count_invariance img k N out :
  wf_image img → fits_int img → 1 ≤ N < 2 ^ 31 →
  Z.of_nat (length out) = total_bytes img →
  4 * columns img ≤ main_section_size img N →
  (∀ i, 1 ≤ i < N →
     c_start (main_thread_arguments img k N i) < columns img ∨
     rows img ≤ r_start (main_thread_arguments img k N i) + 1) →
  total_bytes img - 4 ≤ N * main_section_size img N →
  run_threads img k N out = Some (convolved_image img k) ∧
  run_threads img k N out = run_threads img k 1 out.
Proof. apply pass_invariance. Qed.

Lemma worker_count_invariance_witness :
  wf_image (uniform_image 4 4 90) ∧ fits_int (uniform_image 4 4 90) ∧ 1 ≤ 4 < 2 ^ 31 ∧
  Z.of_nat (length (replicate 64 0)) = total_bytes (uniform_image 4 4 90) ∧
  4 * columns (uniform_image 4 4 90) ≤ main_section_size (uniform_image 4 4 90) 4 ∧
  total_bytes (uniform_image 4 4 90) - 4 ≤ 4 * main_section_size (uniform_image 4 4 90) 4 ∧
  run_threads (uniform_image 4 4 90) (Kernel 1 2 1 2 4 2 1 2 1) 4 (replicate 64 0)
  = run_threads (uniform_image 4 4 90) (Kernel 1 2 1 2 4 2 1 2 1) 1 (replicate 64 0).
Proof.
  assert (wf_image (uniform_image 4 4 90)) as Hwf by (apply uniform_image_wf; lia).
  assert (fits_int (uniform_image 4 4 90)) as Hfit by (unfold fits_int; simpl; lia).
  assert (4 * columns (uniform_image 4 4 90) ≤ main_section_size (uniform_image 4 4 90) 4)
    as Hbelow by (vm_compute; discriminate).
  assert (total_bytes (uniform_image 4 4 90) - 4
          ≤ 4 * main_section_size (uniform_image 4 4 90) 4) as Hlast
    by (vm_compute; discriminate).
  do 2 (split; [done|]). split; [lia|]. do 3 (split; [done|]).
  refine (proj2 (worker_count_invariance (uniform_image 4 4 90) (Kernel 1 2 1 2 4 2 1 2 1) 4
                   (replicate 64 0) Hwf Hfit _ _ Hbelow _ Hlast)); [lia|done|].
  intros i Hi. assert (i = 1 ∨ i = 2 ∨ i = 3) as [-> | [-> | ->]] by lia.
  - left. by vm_compute.
  - left. by vm_compute.
  - right. vm_compute. discriminate.
Defined.

(** The start of thread [i] of four on an image whose dimensions are
    multiples of 4. *)
Lemma four_threads_start img k a b i :
  rows img = 4 * a → columns img = 4 * b → 1 ≤ a → 1 ≤ b → fits_int img →
  1 ≤ i < 4 →
  main_section_size img 4 = 16 * a * b + 4 * b + 1 ∧
  r_start (main_thread_arguments img k 4 i) = a * i ∧
  c_start (main_thread_arguments img k 4 i) = b * i + 1.
Proof.
  intros Hrows Hcols Ha Hb Hfit Hi.
  assert (main_section_size img 4 = 16 * a * b + 4 * b + 1) as HS.
  { unfold main_section_size, wrap32, int_of_unsigned, IMG_BYTE, fits_int in *.
    rewrite Hrows, Hcols in *.
    replace (4 * b * 4 * (4 * a) + 4 * (4 * b) + 4) with ((16 * a * b + 4 * b + 1) * 4) by lia.
    rewrite (Z.mod_small _ (2 ^ 32)) by nia.
    rewrite (Z.mod_small 4) by lia. rewrite Z.div_mul by lia.
    destruct (Z.ltb_spec (16 * a * b + 4 * b + 1) (2 ^ 31)); [done|nia]. }
  split; [done|].
  destruct (start_coordinates (main_thread_arguments img k 4 i)) as [Hr Hc];
    [simpl; lia|simpl; lia|simpl; lia|].
  unfold current_section_offset in Hr, Hc. simpl in Hr, Hc.
  rewrite HS, Hcols in Hr, Hc.
  assert ((16 * a * b + 4 * b + 1) * i / (4 * (4 * b)) = a * i) as Hrow.
  { symmetry. apply (Z.div_unique _ _ _ (i * (4 * b + 1))); [left; nia|lia]. }
  rewrite Hrow in Hr, Hc. split; [done|].
  rewrite bool_decide_eq_true_2 in Hc by nia. rewrite Hc.
  f_equal. symmetry. apply (Z.div_unique _ _ _ i); [lia|lia].
Qed.

(** X12.  On an image whose numbers of rows and of columns are multiples
    of 4, with at least 8 columns, the pass with four workers leaves the same
    output buffer as the pass with one worker, for every kernel. *)
Theorem four_workers_on_wide_images img k out :
  wf_image img → fits_int img →
  (4 | rows img) → (4 | columns img) → 8 ≤ columns img →
  Z.of_nat (length out) = total_bytes img →
  run_threads img k 4 out = run_threads img k 1 out.
Proof.
  intros Hwf Hfit [a Ha] [b Hb] Hwide Hlen. pose proof Hwf as (Hrows & Hcols & _).
  assert (rows img = 4 * a) as Hra by lia. assert (columns img = 4 * b) as Hcb by lia.
  assert (1 ≤ a) by lia. assert (2 ≤ b) by lia.
  assert (main_section_size img 4 = 16 * a * b + 4 * b + 1) as HS.
  { by destruct (four_threads_start img k a b 1 Hra Hcb) as [? _]; [lia..|done|lia|]. }
  apply pass_invariance; [done|done|lia|done|..].
  - rewrite HS, Hcb. nia.
  - intros i Hi. left.
    destruct (four_threads_start img k a b i Hra Hcb) as (_ & _ & ->); [lia|lia|done|lia|].
    rewrite Hcb. nia.
  - rewrite HS. unfold total_bytes. rewrite Hra, Hcb. nia.
Qed.

Lemma four_workers_on_wide_images_witness :
  wf_image (uniform_image 8 8 60) ∧ fits_int (uniform_image 8 8 60) ∧
  (4 | rows (uniform_image 8 8 60)) ∧ (4 | columns (uniform_image 8 8 60)) ∧
  8 ≤ columns (uniform_image 8 8 60) ∧
  Z.of_nat (length (replicate 256 0)) = total_bytes (uniform_image 8 8 60) ∧
  run_threads (uniform_image 8 8 60) (Kernel 0 (-1) 0 (-1) 5 (-1) 0 (-1) 0) 4 (replicate 256 0)
  = run_threads (uniform_image 8 8 60) (Kernel 0 (-1) 0 (-1) 5 (-1) 0 (-1) 0) 1 (replicate 256 0).
Proof.
  assert (wf_image (uniform_image 8 8 60)) as Hwf by (apply uniform_image_wf; lia).
  assert (fits_int (uniform_image 8 8 60)) as Hfit by (unfold fits_int; simpl; lia).
  do 2 (split; [done|]). do 2 (split; [by exists 2|]). split; [simpl; lia|]. split; [done|].
  apply (four_workers_on_wide_images (uniform_image 8 8 60) (Kernel 0 (-1) 0 (-1) 5 (-1) 0 (-1) 0)
           (replicate 256 0) Hwf Hfit); [by exists 2|by exists 2|simpl; lia|done].
Defined.

(** ** Images of one colour *)

Lemma uniform_image_constant r c v : constant_image (uniform_image r c v) (λ _, v).
Proof.
  intros r' c' b Hr Hc Hb. simpl in Hr, Hc. unfold input_channel. simpl.
  apply lookup_total_replicate_2. nia.
Qed.

Lemma output_channel_constant img k colour r c b :
  wf_image img → constant_image img colour →
  0 ≤ r < rows img → 0 ≤ c < columns img → 0 ≤ b < 4 →
  0 ≤ colour b < 256 ∧
  output_channel img k r c b =
    if bool_decide (b = 3) then colour 3
    else clamp_to_range ((sum_of_weights k * colour b) ÷ normalization_factor k) 0 255.
Proof.
  intros Hwf Hconst Hr Hc Hb. pose proof Hwf as (Hrows & Hcols & _). split.
  { rewrite <- (Hconst r c b) by done.
    by apply (input_channel_byte (ThreadArguments 0 0 img k) Hwf). }
  unfold output_channel. case_bool_decide; [by apply Hconst|].
  assert (∀ x y, input_channel img (clamp_to_range x 0 (rows img - 1))
                   (clamp_to_range y 0 (columns img - 1)) b = colour b) as Htap.
  { intros x y. apply Hconst; unfold clamp_to_range; lia. }
  unfold convolved_channel, weighted_sum, taps, sum_of_weights.
  cbn [fmap list_fmap foldr fst snd]. rewrite !Htap.
  destruct k; simpl. do 2 f_equal. ring.
Qed.

(** X13.  On an image all of whose pixels have the same colour, one worker
    with a kernel whose weights do not sum to zero gives back the image, byte
    for byte; with a kernel whose weights sum to zero it gives red, green and
    blue 0 and keeps alpha. *)
Theorem constant_image_pass img k colour out :
  wf_image img → fits_int img →
  Z.of_nat (length out) = total_bytes img →
  constant_image img colour →
  (sum_of_weights k ≠ 0 → run_threads img k 1 out = Some (pixels img)) ∧
  (sum_of_weights k = 0 →
     run_threads img k 1 out =
     Some ((λ n, if bool_decide (offset_channel n = 3) then colour 3 else 0)
             <$> seqZ 0 (total_bytes img))).
Proof.
  intros Hwf Hfit Hlen Hconst. pose proof Hwf as (Hrows & Hcols & Hlen_in & _).
  rewrite single_worker_full by done.
  split; intros Hsum; f_equal; apply list_eq; intros n.
  - destruct (decide (n < Z.to_nat (total_bytes img))%nat) as [Hn|Hn];
      [|rewrite !lookup_ge_None_2; [done|lia|rewrite convolved_image_length; lia]].
    rewrite convolved_image_lookup by done.
    destruct (offset_coordinates (columns img) (rows img) (Z.of_nat n))
      as (Hr & Hc & Hb & Hoff); [done|unfold total_bytes in *; lia|].
    destruct (output_channel_constant img k colour _ _ _ Hwf Hconst Hr Hc Hb) as [Hbyte ->].
    rewrite (list_lookup_lookup_total_lt (pixels img) n) by lia. f_equal.
    replace (pixels img !!! n) with
      (input_channel img (offset_row (columns img) (Z.of_nat n))
         (offset_column (columns img) (Z.of_nat n)) (offset_channel (Z.of_nat n)))
      by (unfold input_channel; f_equal; unfold IMG_BYTE in Hoff; lia).
    rewrite (Hconst _ _ _ Hr Hc Hb).
    case_bool_decide as Hb3; [by rewrite Hb3|].
    unfold normalization_factor. rewrite bool_decide_eq_false_2 by done.
    rewrite Z.mul_comm, Z.quot_mul by done. unfold clamp_to_range. lia.
  - rewrite list_lookup_fmap.
    destruct (decide (n < Z.to_nat (total_bytes img))%nat) as [Hn|Hn];
      [|rewrite lookup_seqZ_ge by lia; simpl;
        rewrite lookup_ge_None_2; [done|rewrite convolved_image_length; lia]].
    rewrite convolved_image_lookup, lookup_seqZ_lt by lia. simpl. f_equal.
    destruct (offset_coordinates (columns img) (rows img) (Z.of_nat n))
      as (Hr & Hc & Hb & Hoff); [done|unfold total_bytes in *; lia|].
    destruct (output_channel_constant img k colour _ _ _ Hwf Hconst Hr Hc Hb) as [Hbyte ->].
    rewrite Z.add_0_l. case_bool_decide; [done|].
    rewrite Hsum. rewrite Z.mul_0_l. done.
Qed.

Lemma constant_image_pass_witness :
  wf_image (uniform_image 3 3 255) ∧ fits_int (uniform_image 3 3 255) ∧
  Z.of_nat (length (replicate 36 0)) = total_bytes (uniform_image 3 3 255) ∧
  constant_image (uniform_image 3 3 255) (λ _, 255) ∧
  sum_of_weights (Kernel 0 (-1) 0 (-1) 5 (-1) 0 (-1) 0) ≠ 0 ∧
  run_threads (uniform_image 3 3 255) (Kernel 0 (-1) 0 (-1) 5 (-1) 0 (-1) 0) 1 (replicate 36 0)
  = Some (pixels (uniform_image 3 3 255)).
Proof.
  assert (wf_image (uniform_image 3 3 255)) as Hwf by (apply uniform_image_wf; lia).
  assert (fits_int (uniform_image 3 3 255)) as Hfit by (unfold fits_int; simpl; lia).
  assert (sum_of_weights (Kernel 0 (-1) 0 (-1) 5 (-1) 0 (-1) 0) ≠ 0) as Hsum
    by (vm_compute; discriminate).
  do 3 (split; [done|]). split; [apply uniform_image_constant|]. split; [done|].
  refine (proj1 (constant_image_pass (uniform_image 3 3 255)
                   (Kernel 0 (-1) 0 (-1) 5 (-1) 0 (-1) 0) (λ _, 255) (replicate 36 0)
                   Hwf Hfit _ _) Hsum); [done|apply uniform_image_constant].
Defined.

(** ** [copy] *)

(** A counted loop with an invariant. *)
Lemma for_each_invariant {A} (body : Z → A → option A) (P : Z → A → Prop) n a :
  0 ≤ n → P 0 a →
  (∀ i a, 0 ≤ i < n → P i a → ∃ a', body i a = Some a' ∧ P (i + 1) a') →
  ∃ a', for_each body (seqZ 0 n) a = Some a' ∧ P n a'.
Proof.
  intros Hn Hstart Hstep.
  assert (∀ (len : nat) m a, 0 ≤ m → m + Z.of_nat len = n → P m a →
            ∃ a', for_each body (seqZ m (Z.of_nat len)) a = Some a' ∧ P n a') as Hgen.
  { induction len as [|len IH]; intros m a0 Hm Hlen HP.
    - exists a0. simpl. replace n with m by lia. done.
    - rewrite seqZ_cons by lia. simpl.
      destruct (Hstep m a0) as (a1 & -> & HP1); [lia|done|]. simpl.
      replace (Z.pred (Z.of_nat (S len))) with (Z.of_nat len) by lia.
      apply IH; [lia|lia|]. by replace (Z.succ m) with (m + 1) by lia. }
  destruct (Hgen (Z.to_nat n) 0 a) as (a' & Hrun & HP); [lia|lia|done|].
  exists a'. by rewrite Z2Nat.id in Hrun.
Qed.

(** X14.  [copy] reproduces the input image byte for byte, with its
    dimensions, whatever the memory obtained for the output held; no access
    leaves a buffer.  An image without pixels is copied too. *)
Theorem copy_exact input block :
  0 ≤ rows input < 2 ^ 31 → 0 ≤ columns input < 2 ^ 31 →
  total_bytes input < 2 ^ 31 →
  Z.of_nat (length (pixels input)) = total_bytes input →
  Forall (λ v, 0 ≤ v < 256) (pixels input) →
  Z.of_nat (length block) = malloc_size input →
  copy input block = Some input.
Proof.
  intros Hrows Hcols Htotal Hlen Hbytes Hblock.
  unfold malloc_size, wrap32, total_bytes in *.
  rewrite Z.mod_small in Hblock by nia.
  unfold copy, init_image, wrap32, int_of_unsigned.
  destruct (Z.ltb_spec (rows input) (2 ^ 31)); [|lia].
  destruct (Z.ltb_spec (columns input) (2 ^ 31)); [|lia].
  rewrite !Z.mod_small by lia. cbn [pixels rows columns].
  set (W := columns input * 4).
  set (copied (k : Z) (out : list Z) :=
         length out = length (pixels input) ∧
         ∀ n : nat, Z.of_nat n < k → out !! n = pixels input !! n).
  lazymatch goal with
  | |- for_each ?body _ _ ≫= _ = _ =>
      destruct (for_each_invariant body (λ r out, copied (W * r) out) (rows input) block)
        as (out & Hrun & Hout & Hall)
  end; [lia|split; [lia|intros n; lia]| |].
  - intros r out0 Hr Hinv. cbv beta.
    lazymatch goal with
    | |- ∃ a', for_each ?body _ _ = _ ∧ _ =>
        destruct (for_each_invariant body (λ c out, copied (W * r + 4 * c) out)
                    (columns input) out0) as (out1 & Hrun1 & Hinv1)
    end; [lia|by rewrite Z.mul_0_r, Z.add_0_r| |].
    + intros c out1 Hc Hinv1. cbv beta.
      lazymatch goal with
      | |- ∃ a', for_each ?body _ _ = _ ∧ _ =>
          destruct (for_each_invariant body (λ b out, copied (W * r + 4 * c + b) out)
                      4 out1) as (out2 & Hrun2 & Hinv2)
      end; [lia|by rewrite Z.add_0_r| |].
      * intros b out2 Hb [Hlen2 Hcopied]. cbv beta.
        pose proof (IMG_BYTE_bounds (columns input) (rows input) r c b Hr Hc Hb) as Hoff.
        rewrite load_in_bounds by lia. simpl.
        rewrite store_in_bounds by lia.
        eexists. split; [done|]. split; [by rewrite length_insert|].
        intros n Hn.
        assert (IMG_BYTE (columns input) r c b = W * r + 4 * c + b) as Haddr
          by (unfold IMG_BYTE, W; lia).
        destruct (decide (n = Z.to_nat (IMG_BYTE (columns input) r c b))) as [->|Hne].
        -- rewrite list_lookup_insert_eq by lia.
           rewrite pixel_of_int_byte.
           ++ symmetry. apply list_lookup_lookup_total_lt. lia.
           ++ rewrite Forall_forall in Hbytes. apply Hbytes.
              apply list_elem_of_lookup_total_2. lia.
        -- rewrite list_lookup_insert_ne by done. apply Hcopied. lia.
      * exists out2. split; [done|].
        destruct Hinv2 as [? Hcopied]. split; [done|]. intros n Hn. apply Hcopied. lia.
    + exists out1. split; [done|].
      destruct Hinv1 as [? Hcopied]. split; [done|]. intros n Hn. apply Hcopied.
      unfold W in *. lia.
  - rewrite Hrun. simpl. assert (out = pixels input) as ->.
    { apply list_eq. intros n.
      destruct (decide (n < length (pixels input))%nat) as [Hn|Hn].
      - apply Hall. unfold W. lia.
      - rewrite !lookup_ge_None_2; [done|lia..]. }
    by destruct input.
Qed.

Lemma copy_exact_witness :
  0 ≤ rows (uniform_image 2 3 77) < 2 ^ 31 ∧ 0 ≤ columns (uniform_image 2 3 77) < 2 ^ 31 ∧
  total_bytes (uniform_image 2 3 77) < 2 ^ 31 ∧
  Z.of_nat (length (pixels (uniform_image 2 3 77))) = total_bytes (uniform_image 2 3 77) ∧
  Forall (λ v, 0 ≤ v < 256) (pixels (uniform_image 2 3 77)) ∧
  Z.of_nat (length (replicate 24 5)) = malloc_size (uniform_image 2 3 77) ∧
  copy (uniform_image 2 3 77) (replicate 24 5) = Some (uniform_image 2 3 77).
Proof.
  destruct (uniform_image_wf 2 3 77) as (_ & _ & Hlen & Hbytes); [lia..|].
  do 2 (split; [simpl; lia|]). split; [by vm_compute|]. split; [done|]. split; [done|].
  split; [by vm_compute|].
  apply (copy_exact (uniform_image 2 3 77) (replicate 24 5));
    [simpl; lia|simpl; lia|by vm_compute|done|done|by vm_compute].
Defined.

(** ** The kernel catalog *)

Lemma find_entry_Some catalog n e :
  find_entry catalog n = Some e → e ∈ catalog ∧ name e = n.
Proof.
  induction catalog as [|cp rest IH]; simpl; [done|].
  destruct (String.eqb_spec (name cp) n) as [Heq|Hne].
  - intros [= <-]. split; [by left|done].
  - intros [Hin Hname]%IH. split; [by right|done].
Qed.

Lemma find_entry_None catalog n :
  find_entry catalog n = None ↔ ∀ e, e ∈ catalog → name e ≠ n.
Proof.
  induction catalog as [|cp rest IH]; simpl.
  - split; [by intros _ e ?%elem_of_nil|done].
  - destruct (String.eqb_spec (name cp) n) as [Heq|Hne].
    + split; [done|]. intros Hall. exfalso. apply (Hall cp); [by left|done].
    + rewrite IH. split.
      * intros Hall e [->|Hin]%elem_of_cons; [done|by apply Hall].
      * intros Hall e Hin. apply Hall. by right.
Qed.

Lemma find_entry_own_name catalog e :
  NoDup (name <$> catalog) → e ∈ catalog → find_entry catalog (name e) = Some e.
Proof.
  induction catalog as [|cp rest IH]; simpl; [by intros _ ?%elem_of_nil|].
  intros [Hfresh Hnd]%NoDup_cons [->|Hin]%elem_of_cons.
  - by rewrite String.eqb_refl.
  - destruct (String.eqb_spec (name cp) (name e)) as [Heq|Hne]; [|by apply IH].
    exfalso. apply Hfresh. rewrite Heq. by apply list_elem_of_fmap_2.
Qed.

(** X15.  The lookup of a kernel by name: an entry found is an entry of the
    catalog with the name asked for; nothing is found exactly when no entry
    has that name; and every entry of the catalog is found under its own
    name, the five names being different. *)
Theorem find_entry_by_name_lookup :
  (∀ n e, find_entry_by_name n = Some e → e ∈ kernel_catalog ∧ name e = n) ∧
  (∀ n, find_entry_by_name n = None ↔ ∀ e, e ∈ kernel_catalog → name e ≠ n) ∧
  (∀ e, e ∈ kernel_catalog → find_entry_by_name (name e) = Some e).
Proof.
  split_and!.
  - intros n e. apply find_entry_Some.
  - intros n. apply find_entry_None.
  - intros e. apply find_entry_own_name.
    apply (bool_decide_unpack _). by vm_compute.
Qed.

(** ** The options of [main] *)

Lemma optargs_cons ch ch' arg opts :
  optargs ch' ((ch, arg) :: opts) =
  if decide (ch = ch') then arg :: optargs ch' opts else optargs ch' opts.
Proof.
  unfold optargs. rewrite filter_cons. simpl. by destruct (decide (ch = ch')).
Qed.

Lemma options_after_nil atoi st : options_after atoi st [] = st.
Proof. by destruct st. Qed.

Section OptionFacts.
Variable atoi : string → Z.

Lemma getopt_loop_spec opts st st' :
  getopt_loop atoi opts st = Continue st' ↔
  Forall known_option opts ∧ st' = options_after atoi st opts.
Proof.
  revert st. induction opts as [|[ch arg] opts IH]; intros st.
  - rewrite options_after_nil. split; [by intros [= ->]|by intros [_ ->]].
  - simpl. unfold option_case. rewrite Forall_cons.
    destruct (Ascii.eqb_spec ch "i") as [->|Hi];
      [|destruct (Ascii.eqb_spec ch "k") as [->|Hk];
        [|destruct (Ascii.eqb_spec ch "o") as [->|Ho];
          [|destruct (Ascii.eqb_spec ch "n") as [->|Hn]]]].
    + assert (known_option ("i"%char, arg)) by (by left).
      rewrite IH. unfold options_after. simpl. rewrite !optargs_cons.
      repeat case_decide; try done.
      rewrite last_cons. destruct (last (optargs "i" opts)); tauto.
    + destruct (find_entry_by_name arg) as [entry|] eqn:Hfind.
      * assert (known_option ("k"%char, arg))
          by (do 3 right; split; [done|]; simpl; by rewrite Hfind).
        rewrite IH. unfold options_after. simpl. rewrite !optargs_cons.
        repeat case_decide; try done.
        rewrite last_cons. destruct (last (optargs "k" opts)); rewrite ?Hfind; tauto.
      * split; [done|]. intros [[Hknown _] _].
        destruct Hknown as [?|[?|[?|[_ Hsome]]]]; try done.
        simpl in Hsome. rewrite Hfind in Hsome. by destruct Hsome.
    + assert (known_option ("o"%char, arg)) by (right; by left).
      rewrite IH. unfold options_after. simpl. rewrite !optargs_cons.
      repeat case_decide; try done.
      rewrite last_cons. destruct (last (optargs "o" opts)); tauto.
    + assert (known_option ("n"%char, arg)) by (do 2 right; by left).
      rewrite IH. unfold options_after. simpl. rewrite !optargs_cons.
      repeat case_decide; try done.
      rewrite last_cons. destruct (last (optargs "n" opts)); tauto.
    + split; [done|]. intros [[Hknown _] _].
      destruct Hknown as [?|[?|[?|[? _]]]]; done.
Qed.
End OptionFacts.

Lemma check_file_names_spec st st' :
  check_file_names st = Continue st' ↔
  st' = st ∧ ∃ i o, input_file_name st = Some i ∧ output_file_name st = Some o ∧ i ≠ o.
Proof.
  unfold check_file_names.
  destruct (input_file_name st) as [i|]; [|split; [done|by intros (_ & ? & ? & ? & _)]].
  destruct (output_file_name st) as [o|]; [|split; [done|by intros (_ & ? & ? & _ & ? & _)]].
  destruct (String.eqb_spec i o) as [->|Hne].
  - split; [done|]. intros (_ & ? & ? & [= <-] & [= <-] & ?). done.
  - split; [intros [= <-]; eauto 6|by intros [-> _]].
Qed.

Lemma main_options_spec atoi opts st :
  main_options atoi opts = Continue st ↔
  Forall known_option opts ∧
  st = options_after atoi (initial_options) opts ∧
  ∃ i o, last (optargs "i" opts) = Some i ∧ last (optargs "o" opts) = Some o ∧ i ≠ o.
Proof.
  unfold main_options.
  destruct (getopt_loop atoi opts initial_options) as [st0|msge] eqn:Hloop.
  - apply getopt_loop_spec in Hloop as [Hknown ->].
    rewrite check_file_names_spec. unfold options_after at 2 3. simpl.
    destruct (last (optargs "i" opts)) as [i|], (last (optargs "o" opts)) as [o|];
      (split; [intros [-> ?]|intros (_ & -> & ?)]; by split_and?).
  - split; [done|]. intros (Hknown & _ & _).
    assert (getopt_loop atoi opts initial_options
            = Continue (options_after atoi initial_options opts)) as Hrun
      by (by apply getopt_loop_spec).
    congruence.
Qed.

(** X16.  Which command lines [main] goes on with: every option is [-i],
    [-o], [-n] or a [-k] naming a kernel of the catalog, an input and an
    output file are given, and the last input name differs from the last
    output name.  Every other command line ends in [usage]; the argument of
    [-n] plays no part. *)
Theorem main_options_accepts atoi opts :
  (∃ st, main_options atoi opts = Continue st) ↔
  Forall known_option opts ∧
  ∃ i o, last (optargs "i" opts) = Some i ∧ last (optargs "o" opts) = Some o ∧ i ≠ o.
Proof.
  split.
  - intros [st (? & _ & ?)%main_options_spec]. done.
  - intros [? ?]. eexists. by apply main_options_spec.
Qed.

(** X17.  When [main] goes on, every variable holds what the last option of
    its letter gave: the file names, the thread count [atoi] returned for
    the last [-n], which is not checked, or 1 without [-n], and the entry of
    the catalog named by the last [-k], or the default entry without [-k]. *)
Theorem main_options_values atoi opts st :
  main_options atoi opts = Continue st →
  input_file_name st = last (optargs "i" opts) ∧
  output_file_name st = last (optargs "o" opts) ∧
  number_of_threads st =
    match last (optargs "n" opts) with Some a => atoi a | None => 1 end ∧
  ∃ entry, selected_entry st = Some entry ∧ entry ∈ kernel_catalog ∧
           name entry = default DEFAULT_KERNEL_NAME (last (optargs "k" opts)).
Proof.
  intros (Hknown & -> & i & o & Hi & Ho & _)%main_options_spec.
  unfold options_after. simpl. rewrite Hi, Ho. split_and!; [done..|].
  destruct (last (optargs "k" opts)) as [n|] eqn:Hk; simpl.
  - destruct (find_entry_by_name n) as [entry|] eqn:Hfind.
    + exists entry. split; [done|]. by apply find_entry_Some.
    + exfalso. apply last_Some_elem_of in Hk. unfold optargs in Hk.
      apply list_elem_of_fmap in Hk as ([ch arg] & -> & [Hch Hin]%list_elem_of_filter).
      simpl in *. subst ch. rewrite Forall_forall in Hknown.
      destruct (Hknown _ Hin) as [?|[?|[?|[_ Hsome]]]]; try done.
      simpl in Hsome. rewrite Hfind in Hsome. by destruct Hsome.
  - eexists. split; [reflexivity|]. split; [by left|done].
Qed.

Lemma main_options_values_witness :
  let atoi := λ s : string, if String.eqb s "0" then 0 else 4 in
  let opts := [("i"%char, "in.png"); ("n"%char, "4"); ("k"%char, "sharpen");
               ("o"%char, "out.png"); ("n"%char, "0")] in
  ∃ st, main_options atoi opts = Continue st ∧
    input_file_name st = Some "in.png" ∧ output_file_name st = Some "out.png" ∧
    number_of_threads st = 0 ∧
    ∃ entry, selected_entry st = Some entry ∧ entry ∈ kernel_catalog ∧
             name entry = "sharpen".
Proof.
  intros atoi opts.
  assert (∃ st, main_options atoi opts = Continue st) as [st Hst] by (eexists; by vm_compute).
  exists st. split; [done|].
  apply (main_options_values atoi opts st Hst).
Defined.

(** ** Where a worker starts *)

(** X18.  The start pixel of a worker: its row is
    [floor (byteOffset / (4 * columns))]; for an offset inside the first row
    the worker starts at pixel [(0, 0)], wherever in the row the offset lies;
    for an offset at or after the second row it starts at column
    [floor ((byteOffset mod (4 * columns)) / 4) + 1], the first pixel that
    begins after the offset. *)
Theorem start_pixel arguments :
  1 ≤ columns (input arguments) →
  0 ≤ thread_id arguments → 0 ≤ section_size arguments →
  let byteOffset := current_section_offset arguments in
  let W := 4 * columns (input arguments) in
  r_start arguments = byteOffset / W ∧
  (byteOffset < W → r_start arguments = 0 ∧ c_start arguments = 0) ∧
  (W ≤ byteOffset →
     c_start arguments = (byteOffset mod W) / 4 + 1 ∧
     byteOffset
       < IMG_BYTE (columns (input arguments)) (r_start arguments) (c_start arguments) 0
       ≤ byteOffset + 4).
Proof.
  intros Hcols Hid Hsize byteOffset W.
  pose proof (current_section_offset_nonneg arguments Hid Hsize) as Hcur.
  destruct (start_coordinates arguments Hcols Hid Hsize) as [Hr Hc]. simpl in Hr, Hc.
  fold byteOffset W in Hr, Hc, Hcur. split_and!; [done| |].
  - intros Hrow0. rewrite Hc, Hr, Z.div_small by lia. by rewrite bool_decide_eq_false_2 by lia.
  - intros Hbelow.
    destruct (first_pixel_after arguments Hcols Hid Hsize Hbelow) as (Hr1 & _ & Hafter).
    split; [|done]. rewrite Hc, bool_decide_eq_true_2 by lia.
    do 2 f_equal. pose proof (Z.div_mod byteOffset W ltac:(unfold W; lia)). lia.
Qed.

Lemma start_pixel_witness :
  let arguments := main_thread_arguments (uniform_image 4 4 0) identity_kernel 4 2 in
  1 ≤ columns (input arguments) ∧ 0 ≤ thread_id arguments ∧ 0 ≤ section_size arguments ∧
  current_section_offset arguments = 42 ∧
  r_start arguments = 42 / 16 ∧ 16 ≤ 42 ∧ c_start arguments = (42 mod 16) / 4 + 1.
Proof.
  intros arguments.
  assert (0 ≤ section_size arguments) as Hsize by (vm_compute; discriminate).
  split; [simpl; lia|]. split; [simpl; lia|]. split; [done|]. split; [by vm_compute|].
  destruct (start_pixel arguments) as (Hr & _ & Hc); [simpl; lia|simpl; lia|done|].
  split; [exact Hr|]. split; [lia|]. apply Hc. vm_compute. discriminate.
Defined.

(** X19.  A worker whose section offset lies in the last pixel of a row, at
    or after the second row, starts at column [columns], past the row, and
    visits no pixel at all: the column is never reset. *)
Theorem section_starting_in_last_column arguments :
  1 ≤ columns (input arguments) →
  0 ≤ thread_id arguments → 0 ≤ section_size arguments →
  4 * columns (input arguments) ≤ current_section_offset arguments →
  4 * columns (input arguments) - 4
    ≤ current_section_offset arguments mod (4 * columns (input arguments)) →
  c_start arguments = columns (input arguments) ∧ worker_pixels arguments = [].
Proof.
  intros Hcols Hid Hsize Hbelow Hlast.
  destruct (start_coordinates arguments Hcols Hid Hsize) as [Hr Hc]. simpl in Hr, Hc.
  set (cur := current_section_offset arguments) in *.
  set (W := 4 * columns (input arguments)) in *.
  assert (1 ≤ cur / W) by (apply Z.div_le_lower_bound; unfold W; lia).
  rewrite bool_decide_eq_true_2 in Hc by lia.
  pose proof (Z.div_mod cur W ltac:(unfold W; lia)).
  pose proof (Z.mod_pos_bound cur W ltac:(unfold W; lia)).
  replace (cur - W * (cur / W)) with (cur mod W) in Hc by lia.
  assert (cur mod W / 4 = columns (input arguments) - 1) as Hdiv.
  { symmetry. apply (Z.div_unique _ _ _ (cur mod W - (W - 4))); unfold W in *; lia. }
  rewrite Hdiv in Hc. assert (c_start arguments = columns (input arguments)) as Hcs by lia.
  split; [done|]. apply elem_of_nil_inv. intros [r c] Hp.
  apply worker_pixels_iff in Hp as (_ & _ & ? & _); [lia|done..].
Qed.

Lemma section_starting_in_last_column_witness :
  let arguments := main_thread_arguments (uniform_image 8 4 0) identity_kernel 4 3 in
  1 ≤ columns (input arguments) ∧ 0 ≤ thread_id arguments ∧ 0 ≤ section_size arguments ∧
  current_section_offset arguments = 111 ∧
  4 * columns (input arguments) ≤ current_section_offset arguments ∧
  4 * columns (input arguments) - 4
    ≤ current_section_offset arguments mod (4 * columns (input arguments)) ∧
  c_start arguments = columns (input arguments) ∧ worker_pixels arguments = [].
Proof.
  intros arguments.
  assert (0 ≤ section_size arguments) as Hsize by (vm_compute; discriminate).
  assert (4 * columns (input arguments) ≤ current_section_offset arguments) as Hbelow
    by (vm_compute; discriminate).
  assert (4 * columns (input arguments) - 4
          ≤ current_section_offset arguments mod (4 * columns (input arguments))) as Hlast
    by (vm_compute; discriminate).
  split; [simpl; lia|]. split; [simpl; lia|]. split; [done|]. split; [by vm_compute|].
  do 2 (split; [done|]).
  apply (section_starting_in_last_column arguments); [simpl; lia|simpl; lia|done..].
Defined.

(** X20.  A thread other than thread 0 whose section starts inside the first
    row starts at pixel [(0, 0)] too, and visits again every pixel that
    thread 0 visits. *)
Theorem early_thread_repeats_thread0 img k N i r c :
  wf_image img → fits_int img → 1 ≤ N < 2 ^ 31 →
  0 ≤ i < N → i * main_section_size img N < 4 * columns img →
  (r, c) ∈ thread_pixels img k N 0 → (r, c) ∈ thread_pixels img k N i.
Proof.
  intros Hwf Hfit HN Hi Hrow0 Hp. pose proof Hwf as (_ & Hcols & _).
  pose proof (main_section_size_nonneg img N Hwf Hfit HN) as Hsize.
  apply worker_pixels_iff in Hp as (Hr & Hc & _ & _ & Hnext); [|done..].
  unfold next_section_offset, current_section_offset in Hnext. simpl in *.
  destruct (start_coordinates (main_thread_arguments img k N i)) as [Hr0 Hc0];
    [done|simpl; lia|done|].
  unfold current_section_offset in Hr0, Hc0. simpl in Hr0, Hc0.
  rewrite Z.div_small in Hr0, Hc0 by nia. rewrite bool_decide_eq_false_2 in Hc0 by lia.
  apply worker_pixels_iff; [done|simpl; lia|done|]. simpl.
  rewrite Hr0, Hc0. unfold next_section_offset, current_section_offset. simpl.
  unfold IMG_BYTE in *. split_and!; nia.
Qed.

Lemma early_thread_repeats_thread0_witness :
  wf_image (uniform_image 1 3 0) ∧ fits_int (uniform_image 1 3 0) ∧ 1 ≤ 3 < 2 ^ 31 ∧
  0 ≤ 1 < 3 ∧ 1 * main_section_size (uniform_image 1 3 0) 3 < 4 * columns (uniform_image 1 3 0) ∧
  (0, 2) ∈ thread_pixels (uniform_image 1 3 0) identity_kernel 3 0 ∧
  (0, 2) ∈ thread_pixels (uniform_image 1 3 0) identity_kernel 3 1.
Proof.
  assert (wf_image (uniform_image 1 3 0)) as Hwf by (apply uniform_image_wf; lia).
  assert (fits_int (uniform_image 1 3 0)) as Hfit by (unfold fits_int; simpl; lia).
  assert (1 * main_section_size (uniform_image 1 3 0) 3 < 4 * columns (uniform_image 1 3 0))
    as Hrow0 by (by vm_compute).
  assert ((0, 2) ∈ thread_pixels (uniform_image 1 3 0) identity_kernel 3 0) as Hp.
  { vm_compute. do 2 apply list_elem_of_further. apply list_elem_of_here. }
  do 2 (split; [done|]). do 2 (split; [lia|]). do 2 (split; [done|]).
  apply (early_thread_repeats_thread0 (uniform_image 1 3 0) identity_kernel 3 1 0 2);
    [done|done|lia|lia|done|done].
Defined.

(** X21.  The sections reach the last pixel of the image whenever there are
    at most [4 * columns + 8] workers, and never beyond the byte address
    [IMG_BYTE (columns, rows, columns, 4)] they were cut from. *)
Theorem sections_reach_last_pixel img N :
  wf_image img → fits_int img → 1 ≤ N < 2 ^ 31 →
  N * main_section_size img N ≤ total_bytes img + 4 * columns img + 4 ∧
  (N ≤ 4 * columns img + 8 → total_bytes img - 4 ≤ N * main_section_size img N).
Proof.
  intros Hwf Hfit HN. pose proof Hwf as (Hrows & Hcols & _).
  rewrite main_section_size_eq by done. unfold total_bytes.
  set (T := rows img * columns img * 4 + 4 * columns img + 4).
  pose proof (Z.mul_div_le T N ltac:(lia)).
  pose proof (Z.mul_succ_div_gt T N ltac:(lia)).
  unfold T in *. split; [lia|]. intros Hfew. lia.
Qed.

Lemma sections_reach_last_pixel_witness :
  wf_image (uniform_image 8 4 0) ∧ fits_int (uniform_image 8 4 0) ∧ 1 ≤ 4 < 2 ^ 31 ∧
  4 * main_section_size (uniform_image 8 4 0) 4 ≤ total_bytes (uniform_image 8 4 0) + 4 * 4 + 4 ∧
  total_bytes (uniform_image 8 4 0) - 4 ≤ 4 * main_section_size (uniform_image 8 4 0) 4.
Proof.
  assert (wf_image (uniform_image 8 4 0)) as Hwf by (apply uniform_image_wf; lia).
  assert (fits_int (uniform_image 8 4 0)) as Hfit by (unfold fits_int; simpl; lia).
  do 2 (split; [done|]). split; [lia|].
  destruct (sections_reach_last_pixel (uniform_image 8 4 0) 4 Hwf Hfit) as [Hup Hlow]; [lia|].
  split; [exact Hup|]. apply Hlow. simpl. lia.
Defined.
